(** * ITPF Legal System: query partitioning, aggregation and key rotation

    Shallow embedding of the search pipeline of
    [netlify/functions/searchFunction.js] and [api/search.js]:
    the Arabic text preprocessing, the document optimisation, the query
    splitter, the result aggregator, the API key selection, the retrying
    non-streaming API call and the document partitioning.

    JavaScript strings are sequences of UTF-16 code units, modelled as
    [list N]; [.length] is [length], [.trim()] and the regular expression
    class [\s] use the ECMAScript WhiteSpace and LineTerminator code units. *)

From Stdlib Require Import String Ascii List Bool Arith NArith ZArith Lia.
From Stdlib Require Import Sorting.Sorted Sorting.Permutation DecimalNat.
Import ListNotations.

Open Scope list_scope.
Set Warnings "-register-all".

(** ** JavaScript strings *)

Definition jstr := list N.

(** An ASCII literal as a JavaScript string. *)
Definition s2j (s : string) : jstr :=
  map (fun a => N.of_nat (nat_of_ascii a)) (list_ascii_of_string s).

Fixpoint jstr_eqb (a b : jstr) : bool :=
  match a, b with
  | [], [] => true
  | x :: a', y :: b' => N.eqb x y && jstr_eqb a' b'
  | _, _ => false
  end.

(** Code units matched by [\s] and removed by [String.prototype.trim]. *)
Definition is_ws (c : N) : bool :=
  N.eqb c 9 || N.eqb c 10 || N.eqb c 11 || N.eqb c 12 || N.eqb c 13 ||
  N.eqb c 32 || N.eqb c 160 || N.eqb c 5760 ||
  (N.leb 8192 c && N.leb c 8202) ||
  N.eqb c 8232 || N.eqb c 8233 || N.eqb c 8239 || N.eqb c 8287 ||
  N.eqb c 12288 || N.eqb c 65279.

(** Code units matched by the class [[a-zA-Z]]. *)
Definition is_latin (c : N) : bool :=
  (N.leb 65 c && N.leb c 90) || (N.leb 97 c && N.leb c 122).

(** [String.prototype.trim]: drop leading whitespace, then trailing. *)
Fixpoint trim_start (s : jstr) : jstr :=
  match s with
  | [] => []
  | c :: t => if is_ws c then trim_start t else s
  end.

Definition trim (s : jstr) : jstr := rev (trim_start (rev (trim_start s))).

(** ** preprocessArabicText *)

(** [text.replace(/([a-zA-Z]+)/g, ' $1 ')]: the global greedy match visits
    every maximal run of Latin letters from left to right and surrounds it
    with one space; [inrun] records that the previous code unit belongs to
    the run being copied. *)
Fixpoint space_latin_aux (inrun : bool) (s : jstr) : jstr :=
  match s with
  | [] => if inrun then [32%N] else []
  | c :: t =>
      if is_latin c
      then (if inrun then c :: space_latin_aux true t
            else 32%N :: c :: space_latin_aux true t)
      else (if inrun then 32%N :: c :: space_latin_aux false t
            else c :: space_latin_aux false t)
  end.

Definition space_latin (s : jstr) : jstr := space_latin_aux false s.

(** [.replace(/\s+/g, ' ')]: every maximal run of whitespace becomes one
    space; [inws] records that the previous code unit was whitespace. *)
Fixpoint collapse_ws_aux (inws : bool) (s : jstr) : jstr :=
  match s with
  | [] => []
  | c :: t =>
      if is_ws c
      then (if inws then collapse_ws_aux true t else 32%N :: collapse_ws_aux true t)
      else c :: collapse_ws_aux false t
  end.

Definition collapse_ws (s : jstr) : jstr := collapse_ws_aux false s.

(** [function preprocessArabicText(text)]: [if (!text) return ''], then
    the two replacements and [.trim()]. *)
Definition preprocessArabicText (text : jstr) : jstr :=
  match text with
  | [] => []
  | _ => trim (collapse_ws (space_latin text))
  end.

(** A one-pass normaliser used to reason about [preprocessArabicText]:
    it copies every non-whitespace code unit and emits a single space
    between two copied units when whitespace separated them or when one
    is a Latin letter and the other is not. *)
Inductive tstate := TStart | TLatin | TOther | TPend.

Definition ws_next (st : tstate) : tstate :=
  match st with TStart => TStart | _ => TPend end.

Definition class_of (c : N) : tstate := if is_latin c then TLatin else TOther.

Definition sep_before (st : tstate) (c : N) : bool :=
  match st with
  | TStart => false
  | TPend => true
  | TLatin => negb (is_latin c)
  | TOther => is_latin c
  end.

Fixpoint norm_aux (st : tstate) (s : jstr) : jstr :=
  match s with
  | [] => []
  | c :: t =>
      if is_ws c then norm_aux (ws_next st) t
      else if sep_before st c then 32%N :: c :: norm_aux (class_of c) t
      else c :: norm_aux (class_of c) t
  end.

Fixpoint norm_final (st : tstate) (s : jstr) : tstate :=
  match s with
  | [] => st
  | c :: t => if is_ws c then norm_final (ws_next st) t else norm_final (class_of c) t
  end.

Definition trail (st : tstate) (s : jstr) : jstr :=
  match norm_final st s with TLatin | TPend => [32%N] | _ => [] end.

Definition lead (st : tstate) : jstr := match st with TPend => [32%N] | _ => [] end.
Definition inrun_of (st : tstate) : bool := match st with TLatin => true | _ => false end.
Definition inws_of (st : tstate) : bool := match st with TPend => true | _ => false end.

Inductive compat : tstate -> tstate -> Prop :=
| compat_start : compat TStart TStart
| compat_latin : compat TLatin TLatin
| compat_other : compat TOther TOther
| compat_pend_latin : compat TPend TLatin
| compat_pend_other : compat TPend TOther.

(** ** splitQueryIntelligently *)

Definition lang_ar : jstr := s2j "ar".
Definition is_ar (language : jstr) : bool := jstr_eqb language lang_ar.

Fixpoint is_prefix (p s : jstr) : bool :=
  match p, s with
  | [], _ => true
  | x :: p', y :: s' => N.eqb x y && is_prefix p' s'
  | _ :: _, [] => false
  end.

(** [s.includes(sub)]. *)
Fixpoint includes (s sub : jstr) : bool :=
  is_prefix sub s ||
  match s with
  | [] => false
  | _ :: t => includes t sub
  end.

(** [s.split(sep)] for a non-empty [sep]: the string is scanned from the
    left; at each match the piece collected so far (in [acc], reversed) is
    emitted and the [length sep - 1] further code units of the match are
    skipped ([skip]). *)
Fixpoint split_aux (sep : jstr) (skip : nat) (acc : jstr) (s : jstr) : list jstr :=
  match s with
  | [] => [rev acc]
  | c :: t =>
      match skip with
      | S k => split_aux sep k acc t
      | O => if is_prefix sep s then rev acc :: split_aux sep (pred (length sep)) [] t
             else split_aux sep 0 (c :: acc) t
      end
  end.

Definition split (s sep : jstr) : list jstr := split_aux sep 0 [] s.

(** The Arabic connectors, in order: and, or, also, also, in addition,
    furthermore. *)
Definition arabicSplitters : list jstr :=
  [ [1608]; [1571; 1608]; [1603; 1605; 1575]; [1571; 1610; 1590; 1575; 1611];
    [1576; 1575; 1604; 1573; 1590; 1575; 1601; 1577];
    [1593; 1604; 1575; 1608; 1577; 32; 1593; 1604; 1609] ]%N.

(** One [arabicSplitters.forEach] round: every current sub-query that
    contains the connector is replaced by its trimmed parts longer than 3. *)
Definition split_round (subQueries : list jstr) (splitter : jstr) : list jstr :=
  flat_map (fun q =>
              if includes q splitter
              then filter (fun p => Nat.ltb 3 (length p)) (map trim (split q splitter))
              else [q])
           subQueries.

Definition splitQueryIntelligently (query language : jstr) : list jstr :=
  if negb (is_ar language) then
    (if includes query (s2j " and ") then map trim (split query (s2j " and "))
     else [query])
  else
    let subQueries := fold_left split_round arabicSplitters [query] in
    let subQueries := if Nat.ltb 3 (length subQueries) then firstn 3 subQueries
                      else subQueries in
    let subQueries := filter (fun q => Nat.ltb 2 (length (trim q))) subQueries in
    if Nat.ltb (length subQueries) 1 || Nat.ltb 4 (length subQueries) then [query]
    else subQueries.

(** ** aggregateQueryResults *)

(** An [article_number] as the model returns it; [ANone] is a missing
    field.  Set membership in [seenArticles] is SameValueZero, so a string
    and a number never coincide. *)
Inductive artnum := ANone | AStr (s : jstr) | ANum (z : Z).

Definition artnum_eqb (a b : artnum) : bool :=
  match a, b with
  | ANone, ANone => true
  | AStr x, AStr y => jstr_eqb x y
  | ANum x, ANum y => Z.eqb x y
  | _, _ => false
  end.

(** One entry of a [results] array.  Scores are modelled as integers; a
    missing score is [None]. *)
Record search_result := mkResult {
  article_number : artnum;
  title : jstr;
  relevant_text : jstr;
  explanation : jstr;
  score : option Z
}.

(** What [JSON.parse(response.choices[0].message.content)] yields for one
    successful sub-query: a parse failure, or an object whose [results]
    field is missing or an array. *)
Inductive sub_content :=
| Unparsable
| Parsed (results : option (list search_result)).

(** The value [{ subQuery, response, success }] of one sub-query promise
    and its [Promise.allSettled] status. *)
Record sub_value := mkSubValue {
  sv_subQuery : jstr;
  sv_success : bool;
  sv_response : sub_content
}.

Inductive settled := Fulfilled (v : sub_value) | Rejected.

(** The object serialised into [choices[0].message.content]; fields the
    code does not set are [None]. *)
Record agg_response := mkAgg {
  results : list search_result;
  total_results : nat;
  query_language : jstr;
  error : option jstr;
  partitioned_search : option bool;
  sub_queries_processed : option nat
}.

Definition msg_failed_ar : jstr :=
  [1601; 1588; 1604; 32; 1601; 1610; 32; 1605; 1593; 1575; 1604; 1580; 1577; 32;
   1575; 1604; 1575; 1587; 1578; 1593; 1604; 1575; 1605]%N.
Definition msg_failed_en : jstr := s2j "Failed to process query".

Definition successfulResults (subResults : list settled) : list sub_content :=
  flat_map (fun r => match r with
                     | Fulfilled v => if sv_success v then [sv_response v] else []
                     | Rejected => []
                     end) subResults.

Definition content_results (c : sub_content) : list search_result :=
  match c with
  | Parsed (Some rs) => rs
  | _ => []
  end.

(** The flattened results of all successful sub-queries, in order. *)
Definition flattened (subResults : list settled) : list search_result :=
  flat_map content_results (successfulResults subResults).

(** The [seenArticles] loop: keep a result when its [article_number] has
    not been seen. *)
Fixpoint dedup_seen (seen : list artnum) (l : list search_result) : list search_result :=
  match l with
  | [] => []
  | r :: t =>
      if existsb (artnum_eqb (article_number r)) seen then dedup_seen seen t
      else r :: dedup_seen (article_number r :: seen) t
  end.

(** [(r.score || 0)]. *)
Definition score_key (r : search_result) : Z :=
  match score r with Some z => z | None => 0%Z end.

(** [allResults.sort((a, b) => (b.score || 0) - (a.score || 0))]:
    [Array.prototype.sort] is stable, so with this comparator its result
    is the stable sort by descending score, computed here by insertion. *)
Fixpoint insert_desc (x : search_result) (l : list search_result) : list search_result :=
  match l with
  | [] => [x]
  | y :: t => if Z.leb (score_key y) (score_key x) then x :: y :: t
              else y :: insert_desc x t
  end.

Fixpoint sort_by_score (l : list search_result) : list search_result :=
  match l with
  | [] => []
  | x :: t => insert_desc x (sort_by_score t)
  end.

(** Results in descending score order. *)
Definition score_desc (a b : search_result) : Prop := (score_key b <= score_key a)%Z.

Definition aggregateQueryResults (subResults : list settled) (originalQuery language : jstr)
  : agg_response :=
  match successfulResults subResults with
  | [] =>
      {| results := []; total_results := 0; query_language := language;
         error := Some (if is_ar language then msg_failed_ar else msg_failed_en);
         partitioned_search := None; sub_queries_processed := None |}
  | succ =>
      let allResults := dedup_seen [] (flat_map content_results succ) in
      let topResults := firstn 3 (sort_by_score allResults) in
      {| results := topResults; total_results := length topResults;
         query_language := language; error := None;
         partitioned_search := Some true;
         sub_queries_processed := Some (length succ) |}
  end.

(** ** JSON values *)

(** JavaScript values as the corpus and the API responses carry them.
    Objects are association lists in [Object.keys] order. *)
Inductive jsval :=
| JUndef
| JNull
| JBool (b : bool)
| JNum (z : Z)
| JStr (s : jstr)
| JArr (l : list jsval)
| JObj (fields : list (jstr * jsval)).

Definition truthy (v : jsval) : bool :=
  match v with
  | JUndef | JNull => false
  | JBool b => b
  | JNum z => negb (Z.eqb z 0)
  | JStr s => match s with [] => false | _ => true end
  | JArr _ | JObj _ => true
  end.

(** [v || d]. *)
Definition js_or (v d : jsval) : jsval := if truthy v then v else d.

Fixpoint uint_to_jstr (d : Decimal.uint) : jstr :=
  match d with
  | Decimal.Nil => []
  | Decimal.D0 d => 48%N :: uint_to_jstr d
  | Decimal.D1 d => 49%N :: uint_to_jstr d
  | Decimal.D2 d => 50%N :: uint_to_jstr d
  | Decimal.D3 d => 51%N :: uint_to_jstr d
  | Decimal.D4 d => 52%N :: uint_to_jstr d
  | Decimal.D5 d => 53%N :: uint_to_jstr d
  | Decimal.D6 d => 54%N :: uint_to_jstr d
  | Decimal.D7 d => 55%N :: uint_to_jstr d
  | Decimal.D8 d => 56%N :: uint_to_jstr d
  | Decimal.D9 d => 57%N :: uint_to_jstr d
  end.

(** [String(n)] for an array index. *)
Definition index_key (n : nat) : jstr := uint_to_jstr (Nat.to_uint n).

Definition indexed {A} (l : list A) : list (jstr * A) :=
  combine (map index_key (seq 0 (length l))) l.

(** [Object.keys(v)] paired with [v[key]]: own properties of an object,
    indices of an array or of a string, nothing for other values. *)
Definition entries (v : jsval) : list (jstr * jsval) :=
  match v with
  | JObj fs => fs
  | JArr l => indexed l
  | JStr s => indexed (map (fun c => JStr [c]) s)
  | _ => []
  end.

Fixpoint lookup (k : jstr) (fs : list (jstr * jsval)) : jsval :=
  match fs with
  | [] => JUndef
  | (k', v) :: t => if jstr_eqb k k' then v else lookup k t
  end.

(** [v.k]; reading a property of [null] or [undefined] throws ([None]). *)
Definition get_prop (v : jsval) (k : jstr) : option jsval :=
  match v with
  | JUndef | JNull => None
  | _ => Some (lookup k (entries v))
  end.

Fixpoint map_option {A B} (f : A -> option B) (l : list A) : option (list B) :=
  match l with
  | [] => Some []
  | x :: t =>
      match f x, map_option f t with
      | Some y, Some ys => Some (y :: ys)
      | _, _ => None
      end
  end.

(** ** optimizeDocumentsForArabic (searchFunction.js) *)

Definition k_title : jstr := s2j "title".
Definition k_text : jstr := s2j "text".
Definition k_tables : jstr := s2j "Time_Penalty_Tables".

(** [preprocessArabicText(article.text || '')]: a non-string text has no
    [replace] method and throws. *)
Definition preprocess_val (v : jsval) : option jstr :=
  match js_or v (JStr []) with
  | JStr s => Some (preprocessArabicText s)
  | _ => None
  end.

Definition optimize_article (language : jstr) (kv : jstr * jsval) : option (jstr * jsval) :=
  let (articleKey, article) := kv in
  if is_ar language then
    match get_prop article k_title, get_prop article k_text,
          get_prop article k_tables with
    | Some t, Some tx, Some tb =>
        match preprocess_val tx with
        | Some tx' =>
            Some (articleKey, JObj [(k_title, t); (k_text, JStr tx');
                                    (k_tables, js_or tb JUndef)])
        | None => None
        end
    | _, _, _ => None
    end
  else Some (articleKey, article).

(** The documents object is given by its properties; [None] is a thrown
    TypeError. *)
Definition optimizeDocumentsForArabic (documents : list (jstr * jsval)) (language : jstr)
  : option (list (jstr * jsval)) :=
  match documents with
  | [] => Some []
  | (mainKey, articles) :: _ =>
      if negb (truthy articles) then Some []
      else match map_option (optimize_article language) (entries articles) with
           | Some fs => Some [(mainKey, JObj fs)]
           | None => None
           end
  end.

(** ** partitionDocuments (api/search.js) *)

(** [for (let i = 0; i < articleKeys.length; i += partitionSize)] with the
    slice [articleKeys.slice(i, i + partitionSize)] turned into the entries
    [articles[key]]; [fuel] bounds the iterations by the number of keys. *)
Fixpoint partition_loop {A} (fuel : nat) (partitionSize : nat) (ents : list A) (i : nat)
  : list (list A) :=
  match fuel with
  | O => []
  | S f =>
      if Nat.ltb i (length ents)
      then firstn partitionSize (skipn i ents) :: partition_loop f partitionSize ents (i + partitionSize)
      else []
  end.

(** [Math.ceil(n / 3)]. *)
Definition ceil_div3 (n : nat) : nat := (n + 2) / 3.

Definition partitionDocuments (documents : list (jstr * jsval)) : list jsval :=
  match documents with
  | [] => [JObj documents]
  | (mainKey, articles) :: _ =>
      if negb (truthy articles) then [JObj documents]
      else
        let ents := entries articles in
        let partitionSize := ceil_div3 (length ents) in
        map (fun part => JObj [(mainKey, JObj part)])
            (partition_loop (length ents) partitionSize ents 0)
  end.

(** ** getNextApiKey *)

Inductive js_result (A : Type) := Ok (a : A) | Throw (msg : jstr).
Arguments Ok {A} a.
Arguments Throw {A} msg.

(** [DEEPSEEK_API_KEYS]: the three configured variables without the
    undefined or empty ones. *)
Definition DEEPSEEK_API_KEYS (env : list (option jstr)) : list jstr :=
  flat_map (fun o => match o with Some ((_ :: _) as k) => [k] | _ => [] end) env.

Definition msg_no_keys : jstr := s2j "No DeepSeek API keys configured".

Definition key_index (language : jstr) (retryCount poolSize : nat) : nat :=
  if is_ar language then (retryCount + 1) mod poolSize
  else retryCount mod poolSize.

Definition getNextApiKey (keys : list jstr) (language : jstr) (retryCount : nat)
  : js_result jstr :=
  match keys with
  | [] => Throw msg_no_keys
  | _ => Ok (nth (key_index language retryCount (length keys)) keys [])
  end.

(** The selection rule as the specification words it:
    [(retryAttempt + bias) mod poolSize], bias 1 for Arabic, 0 otherwise. *)
Definition spec_bias (language : jstr) : nat := if is_ar language then 1 else 0.
Definition spec_select_index (language : jstr) (retryAttempt poolSize : nat) : nat :=
  (retryAttempt + spec_bias language) mod poolSize.

(** ** searchDeepSeekAPI (non-streaming, with retry) *)

(** The response body: empty, valid JSON, or not JSON. *)
Inductive body := BodyEmpty | BodyJson (v : jsval) | BodyMalformed.

Inductive upstream_event :=
| NetworkError
| RequestTimeout
| HttpResponse (statusCode : nat) (b : body).

Inductive api_rejection :=
| RejNoKeys
| RejStatus (statusCode : nat)
| RejParse (statusCode : nat)
| RejNetwork
| RejTimeout.

Inductive api_outcome := Resolved (v : jsval) | RejectedWith (r : api_rejection).

(** One request sent upstream. *)
Record api_request := mkRequest {
  req_retry : nat;
  req_key_index : nat;
  req_key : jstr;
  req_payload : jsval
}.

(** [responseBody ? JSON.parse(responseBody) : {}]. *)
Definition parse_body (b : body) : option jsval :=
  match b with
  | BodyEmpty => Some (JObj [])
  | BodyJson v => Some v
  | BodyMalformed => None
  end.

(** [upstream retryCount apiKey payload] is the event the request meets.
    The recursion retries only while [retryCount < length keys - 1], so
    [length keys] units of fuel are never exhausted. *)
Fixpoint searchDeepSeekAPI_fuel (fuel : nat) (keys : list jstr)
  (upstream : nat -> jstr -> jsval -> upstream_event)
  (payload : jsval) (language : jstr) (retryCount : nat)
  : list api_request * api_outcome :=
  match getNextApiKey keys language retryCount with
  | Throw _ => ([], RejectedWith RejNoKeys)
  | Ok apiKey =>
      let req := mkRequest retryCount (key_index language retryCount (length keys))
                           apiKey payload in
      match upstream retryCount apiKey payload with
      | NetworkError => ([req], RejectedWith RejNetwork)
      | RequestTimeout => ([req], RejectedWith RejTimeout)
      | HttpResponse st b =>
          match parse_body b with
          | None => ([req], RejectedWith (RejParse st))
          | Some parsed =>
              if Nat.leb 200 st && Nat.ltb st 300 then ([req], Resolved parsed)
              else if Nat.ltb retryCount (length keys - 1)
                      && (Nat.eqb st 429 || Nat.leb 500 st) then
                match fuel with
                | O => ([req], RejectedWith (RejStatus st))
                | S f =>
                    let (reqs, out) :=
                      searchDeepSeekAPI_fuel f keys upstream payload language (S retryCount) in
                    (req :: reqs, out)
                end
              else ([req], RejectedWith (RejStatus st))
          end
      end
  end.

Definition searchDeepSeekAPI (keys : list jstr) (upstream : nat -> jstr -> jsval -> upstream_event)
  (payload : jsval) (language : jstr) (retryCount : nat) : list api_request * api_outcome :=
  searchDeepSeekAPI_fuel (length keys) keys upstream payload language retryCount.

(** ** Concrete inputs *)

(** A corpus of 55 articles followed by an appendix section. *)
Definition corpus55 : list (jstr * jsval) :=
  [(s2j "articles", JArr (repeat (JObj [(k_title, JStr (s2j "T"))]) 55));
   (s2j "appendices", JArr [JNum 9%Z])].

(** A document with one article carrying an [article_number] field,
    followed by an appendix section. *)
Definition docs_with_appendix : list (jstr * jsval) :=
  [(s2j "articles",
    JArr [JObj [(s2j "article_number", JNum 100%Z); (k_title, JStr (s2j "T"));
                (k_text, JStr (s2j "x"))]]);
   (s2j "appendices", JArr [JNum 9%Z])].

(** The number of articles in one partition object. *)
Definition partition_size (p : jsval) : nat :=
  match p with
  | JObj [(_, JObj fs)] => length fs
  | _ => 0
  end.

(** A pool of three keys and two upstream behaviours: throttled on the
    first two attempts then successful, and a 503 whose body is not JSON
    (an HTML error page from a gateway, say). *)
Definition keys3 : list jstr := [s2j "key-1"; s2j "key-2"; s2j "key-3"].

Definition throttled_twice (retryCount : nat) (_ : jstr) (_ : jsval) : upstream_event :=
  if Nat.ltb retryCount 2 then HttpResponse 429 BodyEmpty
  else HttpResponse 200 (BodyJson (JObj [])).

Definition unparsable_503 (_ : nat) (_ : jstr) (_ : jsval) : upstream_event :=
  HttpResponse 503 BodyMalformed.

(** Results and sub-query outcomes for the aggregator. *)
Definition res (n : Z) (id : jstr) : search_result :=
  mkResult (AStr id) (s2j "t") [] [] (Some n).

Definition ok_outcome (q : jstr) (rs : list search_result) : settled :=
  Fulfilled (mkSubValue q true (Parsed (Some rs))).

(** Two successful sub-queries that both return article 105, the first one
    below three better-scored articles. *)
Definition outcomes_105 : list settled :=
  [ok_outcome (s2j "q1") [res 100 (s2j "101"); res 90 (s2j "102");
                          res 80 (s2j "103"); res 10 (s2j "105")];
   ok_outcome (s2j "q2") [res 5 (s2j "105")]].

(** One successful sub-query with scores 10, 90, 50. *)
Definition outcomes_scores : list settled :=
  [ok_outcome (s2j "q") [res 10 (s2j "100"); res 90 (s2j "101"); res 50 (s2j "102")];
   Rejected].

(** ** JavaScript values: conversions and errors *)

(** [String(n)] for an integer [n]. *)
Definition Z_to_jstr (z : Z) : jstr :=
  match z with
  | Z0 => [48%N]
  | Zpos p => uint_to_jstr (Pos.to_uint p)
  | Zneg p => 45%N :: uint_to_jstr (Pos.to_uint p)
  end.

Fixpoint join_with (sep : jstr) (l : list jstr) : jstr :=
  match l with
  | [] => []
  | [x] => x
  | x :: t => x ++ sep ++ join_with sep t
  end.

(** [String(v)]: arrays are joined with commas, their [null] and
    [undefined] elements giving the empty string. *)
Fixpoint to_js_string (v : jsval) : jstr :=
  match v with
  | JUndef => s2j "undefined"
  | JNull => s2j "null"
  | JBool true => s2j "true"
  | JBool false => s2j "false"
  | JNum z => Z_to_jstr z
  | JStr s => s
  | JArr l => join_with [44%N] (map (fun x => match x with
                                           | JUndef | JNull => []
                                           | _ => to_js_string x
                                           end) l)
  | JObj _ => s2j "[object Object]"
  end.

(** [v.k] on a value that is neither [null] nor [undefined]. *)
Definition prop (v : jsval) (k : jstr) : jsval := lookup k (entries v).

(** What a [throw] or a [reject] carries: an error raised by the engine
    (its message is a non-empty text of the engine), [new Error(message)],
    or a plain object [{ error, message, statusCode }]. *)
Inductive js_error :=
| TypeError_
| ReferenceError_ (message : jstr)
| Error_ (message : jstr)
| RejectObject (message : jstr) (statusCode : option nat).

(** [error.message] is truthy. *)
Definition message_truthy (e : js_error) : bool :=
  match e with
  | TypeError_ => true
  | ReferenceError_ m | Error_ m | RejectObject m _ =>
      match m with [] => false | _ => true end
  end.

(** [error.statusCode || 500]. *)
Definition error_status (e : js_error) : nat :=
  match e with
  | RejectObject _ (Some (S _ as st)) => st
  | _ => 500
  end.

(** A promise as observed by the code awaiting it: still pending,
    fulfilled, or rejected. *)
Inductive promise (A : Type) := PPending | PFulfilled (a : A) | PRejected (e : js_error).
Arguments PPending {A}.
Arguments PFulfilled {A} a.
Arguments PRejected {A} e.

(** A settled promise ignores a later [resolve] or [reject]. *)
Definition settle {A} (p q : promise A) : promise A :=
  match p with PPending => q | _ => p end.

(** ** validateRequest (both deployments) *)

Definition msg_query_required : jstr := s2j "Query is required and must be a non-empty string".
Definition msg_query_too_long : jstr := s2j "Query is too long (maximum 1000 characters)".
Definition msg_bad_language : jstr :=
  s2j "Language must be either " ++ [34%N] ++ s2j "ar" ++ [34%N] ++ s2j " or " ++
  [34%N] ++ s2j "en" ++ [34%N].

Record validation := mkValidation { isValid : bool; errors : list jstr }.

(** [['ar', 'en'].includes(language)]. *)
Definition known_language (language : jsval) : bool :=
  match language with
  | JStr s => jstr_eqb s lang_ar || jstr_eqb s (s2j "en")
  | _ => false
  end.

(** The three checks in order; [query.trim()] on a truthy value that is
    not a string is a call of [undefined] and throws a TypeError. *)
Definition validateRequest (query language : jsval) : js_result validation :=
  let errors1 :=
    if negb (truthy query) then [msg_query_required]
    else match query with
         | JStr s => if Nat.eqb (length (trim s)) 0 then [msg_query_required] else []
         | _ => [msg_query_required]
         end in
  let tooLong :=
    if negb (truthy query) then Some false
    else match query with
         | JStr s => Some (Nat.ltb 1000 (length (trim s)))
         | _ => None
         end in
  match tooLong with
  | None => Throw (s2j "query.trim is not a function")
  | Some tl =>
      let errors2 := errors1 ++ (if tl then [msg_query_too_long] else []) in
      let errors3 := errors2 ++ (if negb (truthy language) || negb (known_language language)
                                 then [msg_bad_language] else []) in
      Ok {| isValid := Nat.eqb (length errors3) 0; errors := errors3 |}
  end.

(** ** optimizeDocumentsForArabic (api/search.js) *)

(** The Arabic field names read first: title, text, penalty tables. *)
Definition k_title_ar : jstr := [1593; 1606; 1608; 1575; 1606]%N.
Definition k_text_ar : jstr := [1606; 1589]%N.
Definition k_tables_ar : jstr :=
  [1580; 1583; 1575; 1608; 1604; 95; 1575; 1604; 1593; 1602; 1608; 1576; 1575; 1578;
   95; 1575; 1604; 1586; 1605; 1606; 1610; 1577]%N.

(** [article.عنوان || article.title], [article.نص || article.text || ''],
    [article.جداول_العقوبات_الزمنية || article.Time_Penalty_Tables || undefined]. *)
Definition optimize_article_vercel (language : jstr) (kv : jstr * jsval)
  : option (jstr * jsval) :=
  let (articleKey, article) := kv in
  if is_ar language then
    match get_prop article k_title_ar, get_prop article k_text_ar,
          get_prop article k_tables_ar with
    | Some ta, Some txa, Some tba =>
        let t := js_or ta (prop article k_title) in
        match preprocess_val (js_or txa (prop article k_text)) with
        | Some tx' =>
            Some (articleKey, JObj [(k_title, t); (k_text, JStr tx');
                                    (k_tables, js_or (js_or tba (prop article k_tables)) JUndef)])
        | None => None
        end
    | _, _, _ => None
    end
  else Some (articleKey, article).

Definition optimizeDocumentsForArabic_vercel (documents : list (jstr * jsval)) (language : jstr)
  : option (list (jstr * jsval)) :=
  match documents with
  | [] => Some []
  | (mainKey, articles) :: _ =>
      if negb (truthy articles) then Some []
      else match map_option (optimize_article_vercel language) (entries articles) with
           | Some fs => Some [(mainKey, JObj fs)]
           | None => None
           end
  end.

(** [shouldUsePartitioning] (api/search.js). *)
Definition shouldUsePartitioning (query language : jstr) : bool :=
  is_ar language && Nat.ltb 8 (length (trim query)).

(** ** escapeRegex (frontend) *)

(** The class [[.*+?^${}()|[\\]] of the pattern [/[.*+?^${}()|[\\]\\]/g]. *)
Definition regex_class (c : N) : bool :=
  existsb (N.eqb c) [46; 42; 43; 63; 94; 36; 123; 125; 40; 41; 124; 91; 92]%N.

(** [text.replace(/[.*+?^${}()|[\\]\\]/g, '\\\\$&')]: a match is a class
    code unit followed by a backslash and [']']; it is replaced by two
    backslashes and the match itself. *)
Fixpoint escapeRegex (text : jstr) : jstr :=
  match text with
  | [] => []
  | c :: t =>
      match t with
      | b :: e :: t' =>
          if regex_class c && N.eqb b 92 && N.eqb e 93
          then 92%N :: 92%N :: c :: 92%N :: 93%N :: escapeRegex t'
          else c :: escapeRegex t
      | _ => c :: escapeRegex t
      end
  end.

(** ** The result cache of performSearch (frontend) *)

(** A [Map] in insertion order. *)
Definition cache (V : Type) := list (jstr * V).

(** [Map.prototype.set]: an existing key keeps its position. *)
Fixpoint cache_set {V} (k : jstr) (v : V) (m : cache V) : cache V :=
  match m with
  | [] => [(k, v)]
  | (k', v') :: t => if jstr_eqb k k' then (k', v) :: t else (k', v') :: cache_set k v t
  end.

(** [searchCache.set(cacheKey, data)], then when [size > 50] the first
    key in insertion order is deleted. *)
Definition cache_store {V} (k : jstr) (v : V) (m : cache V) : cache V :=
  let m' := cache_set k v m in
  if Nat.ltb 50 (length m') then tl m' else m'.

Fixpoint cache_get {V} (k : jstr) (m : cache V) : option V :=
  match m with
  | [] => None
  | (k', v) :: t => if jstr_eqb k k' then Some v else cache_get k t
  end.

(** ** createStreamingChatPayload *)

(** The request body.  The two messages are fixed templates around
    [JSON.stringify(documents)] (system) and the query (user); the record
    keeps what they are built from.  The temperature is in tenths. *)
Record chat_payload := mkPayload {
  model : jstr;
  arabic_prompts : bool;
  prompt_documents : jsval;
  prompt_query : jstr;
  temperature_tenths : nat;
  max_tokens : nat;
  stream : bool
}.

(** searchFunction.js: [deepseek-reasoner] for Arabic, temperature 0.6,
    streaming on. *)
Definition createStreamingChatPayload (query language : jstr) (documents : jsval) : chat_payload :=
  {| model := if is_ar language then s2j "deepseek-reasoner" else s2j "deepseek-chat";
     arabic_prompts := is_ar language;
     prompt_documents := documents;
     prompt_query := query;
     temperature_tenths := 6;
     max_tokens := if is_ar language then 800 else 1200;
     stream := true |}.

(** api/search.js: [deepseek-chat] for both languages, temperature 0.3,
    streaming off. *)
Definition createStreamingChatPayload_vercel (query language : jstr) (documents : jsval)
  : chat_payload :=
  {| model := s2j "deepseek-chat";
     arabic_prompts := is_ar language;
     prompt_documents := documents;
     prompt_query := query;
     temperature_tenths := 3;
     max_tokens := if is_ar language then 1000 else 1200;
     stream := false |}.

(** ** processSearchResults *)

Definition k_choices : jstr := s2j "choices".
Definition k_message : jstr := s2j "message".
Definition k_content : jstr := s2j "content".
Definition k_results : jstr := s2j "results".
Definition k_length : jstr := s2j "length".

Definition by_language (language ar en : jstr) : jstr := if is_ar language then ar else en.

Definition msg_failed_process : jstr := s2j "Failed to process search results".

Definition msg_no_results (language : jstr) : jstr :=
  by_language language
    [1604; 1605; 32; 1610; 1578; 1605; 32; 1575; 1604; 1593; 1579; 1608; 1585; 32; 1593;
     1604; 1609; 32; 1606; 1578; 1575; 1574; 1580; 32; 1605; 1591; 1575; 1576; 1602; 1577;
     32; 1604; 1575; 1587; 1578; 1593; 1604; 1575; 1605; 1603; 46; 32; 1610; 1585; 1580;
     1609; 32; 1575; 1604; 1605; 1581; 1575; 1608; 1604; 1577; 32; 1576; 1603; 1604; 1605;
     1575; 1578; 32; 1605; 1582; 1578; 1604; 1601; 1577; 46]%N
    (s2j "No matching results found for your query. Please try different keywords.").

Definition msg_found (language : jstr) (n : nat) : jstr :=
  by_language language
    ([1578; 1605; 32; 1575; 1604; 1593; 1579; 1608; 1585; 32; 1593; 1604; 1609; 32]%N
     ++ index_key n ++ [32; 1606; 1578; 1575; 1574; 1580; 32; 1584; 1575; 1578; 32; 1589; 1604; 1577]%N)
    (s2j "Found " ++ index_key n ++ s2j " relevant results").

(** [apiResponse.choices[0].message.content]. *)
Definition read_content (apiResponse : jsval) : option jsval :=
  match get_prop apiResponse k_choices with
  | None => None
  | Some ch =>
      match get_prop ch (index_key 0) with
      | None => None
      | Some c0 =>
          match get_prop c0 k_message with
          | None => None
          | Some m => get_prop m k_content
          end
      end
  end.

(** [results.length === 0]. *)
Definition length_is_zero (v : jsval) : bool :=
  match v with
  | JArr l => Nat.eqb (length l) 0
  | JStr s => Nat.eqb (length s) 0
  | JObj fs => match lookup k_length fs with JNum z => Z.eqb z 0 | _ => false end
  | _ => false
  end.

(** One element of [processedResults]; [section] and [document] of its
    [source] are constants and left out. *)
Record result_item := mkItem {
  item_id : jstr;
  item_title : jsval;
  item_content : jsval;
  item_highlights : list jsval;
  item_score : jsval;
  item_article : jsval
}.

(** The callback of [results.slice(0, 3).map((result, index) => ...)];
    reading a field of [null] or [undefined] throws. *)
Definition process_item (language : jstr) (index : nat) (result : jsval) : option result_item :=
  match result with
  | JUndef | JNull => None
  | _ =>
      let explanation := prop result (s2j "explanation") in
      Some {| item_id := s2j "result_" ++ index_key index;
              item_title := js_or (prop result k_title)
                              (JStr (by_language language ([1606; 1578; 1610; 1580; 1577; 32]%N
                                                           ++ index_key (S index))
                                                 (s2j "Result " ++ index_key (S index))));
              item_content := js_or (prop result (s2j "relevant_text")) (JStr []);
              item_highlights := if truthy explanation then [explanation] else [];
              item_score := js_or (prop result (s2j "score")) (JNum 0);
              item_article := js_or (prop result (s2j "article_number")) (JStr (s2j "Unknown")) |}
  end.

Fixpoint map_index_from {A B} (f : nat -> A -> option B) (i : nat) (l : list A) : option (list B) :=
  match l with
  | [] => Some []
  | x :: t =>
      match f i x, map_index_from f (S i) t with
      | Some y, Some ys => Some (y :: ys)
      | _, _ => None
      end
  end.

(** The returned object: [success] is always [true]; [metadata] holds
    [total_results], [returned_results] (only with results), [language]
    and, in api/search.js, [platform]. *)
Record processed := mkProcessed {
  hasResults : bool;
  ps_message : jstr;
  ps_results : list result_item;
  ps_total_results : nat;
  ps_returned_results : option nat;
  ps_language : jstr;
  ps_platform : option jstr
}.

(** Both deployments; [platform] is what api/search.js adds to the
    metadata of a non-empty answer.  [JSON.parse] is [parse], applied to
    [String(content)]; every failure is rethrown as
    [new Error('Failed to process search results')]. *)
Definition processSearchResults_with (platform : option jstr) (parse : jstr -> option jsval)
  (language : jstr) (apiResponse : jsval) : js_result processed :=
  match read_content apiResponse with
  | None => Throw msg_failed_process
  | Some content =>
      match parse (to_js_string content) with
      | None => Throw msg_failed_process
      | Some parsedContent =>
          match get_prop parsedContent k_results with
          | None => Throw msg_failed_process
          | Some r =>
              let results := js_or r (JArr []) in
              if length_is_zero results then
                Ok {| hasResults := false; ps_message := msg_no_results language;
                      ps_results := []; ps_total_results := 0; ps_returned_results := None;
                      ps_language := language; ps_platform := None |}
              else
                match results with
                | JArr l =>
                    match map_index_from (process_item language) 0 (firstn 3 l) with
                    | Some items =>
                        Ok {| hasResults := true; ps_message := msg_found language (length items);
                              ps_results := items; ps_total_results := length l;
                              ps_returned_results := Some (length items);
                              ps_language := language; ps_platform := platform |}
                    | None => Throw msg_failed_process
                    end
                | _ => Throw msg_failed_process
                end
          end
      end
  end.

Definition processSearchResults := processSearchResults_with None.

(** ** streamDeepSeekAPI (searchFunction.js): server-sent events *)

(** What the response stream delivers: a decoded chunk, its end, or a
    request error. *)
Inductive stream_event := SChunk (chunk : jstr) | SEnd | SError.

Record sse_state := mkSSE { lastEventData : jstr; sse_result : promise jsval }.

Definition msg_config (language : jstr) : jstr :=
  by_language language
    [1582; 1591; 1571; 32; 1601; 1610; 32; 1573; 1593; 1583; 1575; 1583; 1575; 1578; 32;
     1575; 1604; 1582; 1583; 1605; 1577]%N (s2j "Service configuration error").
Definition msg_no_response (language : jstr) : jstr :=
  by_language language
    [1604; 1605; 32; 1610; 1578; 1605; 32; 1578; 1604; 1602; 1610; 32; 1575; 1587; 1578;
     1580; 1575; 1576; 1577]%N (s2j "No response received").
Definition msg_stream_error (language : jstr) : jstr :=
  by_language language
    [1582; 1591; 1571; 32; 1601; 1610; 32; 1575; 1604; 1575; 1578; 1589; 1575; 1604; 32;
     1575; 1604; 1605; 1576; 1575; 1588; 1585]%N (s2j "Streaming connection error").

(** [{ choices: [{ message: { content }, finish_reason: 'stop' }] }]. *)
Definition stream_response (content : jstr) : jsval :=
  JObj [(k_choices, JArr [JObj [(k_message, JObj [(k_content, JStr content)]);
                                (s2j "finish_reason", JStr (s2j "stop"))]])].

Definition sse_data_prefix : jstr := s2j "data: ".

(** One element of [chunkStr.split('\n\n')].  A [resolve] after the
    promise is settled has no effect; an exception inside the [try]
    (reading [choices] of [null]) is swallowed. *)
Definition sse_event (parse : jstr -> option jsval) (st : sse_state) (event : jstr) : sse_state :=
  if is_prefix sse_data_prefix event then
    let data := skipn 6 event in
    if jstr_eqb data (s2j "[DONE]") then st
    else if truthy (JStr (trim data)) && negb (jstr_eqb data (s2j "keep-alive")) then
      match parse data with
      | None => st
      | Some parsed =>
          match get_prop parsed k_choices with
          | None => st
          | Some ch =>
              let c0 := prop ch (index_key 0) in
              if truthy ch && truthy c0 then
                let delta := prop c0 (s2j "delta") in
                let last :=
                  if truthy delta && truthy (prop delta k_content)
                  then lastEventData st ++ to_js_string (prop delta k_content)
                  else lastEventData st in
                let res :=
                  match prop c0 (s2j "finish_reason") with
                  | JStr s => if jstr_eqb s (s2j "stop")
                              then settle (sse_result st) (PFulfilled (stream_response last))
                              else sse_result st
                  | _ => sse_result st
                  end in
                mkSSE last res
              else st
          end
      end
    else st
  else st.

Definition sse_step (parse : jstr -> option jsval) (language : jstr) (st : sse_state)
  (ev : stream_event) : sse_state :=
  match ev with
  | SChunk chunk => fold_left (sse_event parse) (split chunk [10; 10]%N) st
  | SEnd =>
      match lastEventData st with
      | [] => mkSSE [] (settle (sse_result st) (PRejected (RejectObject (msg_no_response language) None)))
      | last => mkSSE last (settle (sse_result st) (PFulfilled (stream_response last)))
      end
  | SError =>
      mkSSE (lastEventData st)
            (settle (sse_result st) (PRejected (RejectObject (msg_stream_error language) None)))
  end.

Definition sse_run (parse : jstr -> option jsval) (language : jstr) (evs : list stream_event)
  : sse_state :=
  fold_left (sse_step parse language) evs (mkSSE [] PPending).

(** The key is [getNextApiKey(language, 0)]; [net apiKey payload] is what
    the single request delivers. *)
Definition streamDeepSeekAPI (keys : list jstr) (parse : jstr -> option jsval)
  (net : jstr -> chat_payload -> list stream_event) (payload : chat_payload) (language : jstr)
  : promise jsval :=
  match getNextApiKey keys language 0 with
  | Throw _ => PRejected (RejectObject (msg_config language) None)
  | Ok apiKey => sse_result (sse_run parse language (net apiKey payload))
  end.

(** ** processPartitionedQuery (searchFunction.js) *)

(** One [subPromises] element as [Promise.allSettled] reports it ([None]
    while it is pending).  [optimizeDocumentsForArabic] runs outside the
    [try], so its TypeError rejects the element; [read_results] is what
    the aggregator's [JSON.parse(response.choices[0].message.content)]
    makes of a stream response.  A failed sub-query carries [error] and
    no [response]; its [sv_response] is never read. *)
Definition sub_query_settled (keys : list jstr) (parse : jstr -> option jsval)
  (read_results : jsval -> sub_content) (net : jstr -> chat_payload -> list stream_event)
  (documents : list (jstr * jsval)) (language subQuery : jstr) : option settled :=
  match optimizeDocumentsForArabic documents language with
  | None => Some Rejected
  | Some optimizedDocs =>
      match streamDeepSeekAPI keys parse net
              (createStreamingChatPayload subQuery language (JObj optimizedDocs)) language with
      | PPending => None
      | PFulfilled streamResponse =>
          Some (Fulfilled (mkSubValue subQuery true (read_results streamResponse)))
      | PRejected _ => Some (Fulfilled (mkSubValue subQuery false Unparsable))
      end
  end.

(** The [catch] fallback is unreachable: nothing in the [try] throws once
    the sub-promises are settled. *)
Definition processPartitionedQuery (keys : list jstr) (parse : jstr -> option jsval)
  (read_results : jsval -> sub_content) (net : jstr -> chat_payload -> list stream_event)
  (query language : jstr) (documents : list (jstr * jsval)) : promise agg_response :=
  match map_option (sub_query_settled keys parse read_results net documents language)
                   (splitQueryIntelligently query language) with
  | None => PPending
  | Some subResults => PFulfilled (aggregateQueryResults subResults query language)
  end.

(** ** exports.handler (searchFunction.js) *)

Record http_event := mkEvent {
  httpMethod : jstr;
  event_body : jsval;
  queryStringParameters : jsval
}.

(** The response body: empty (preflight), a failure with [error] and
    [message], a validation failure, an error caught by the outer
    [catch] (its [message] is [error.message]), or the processed results.
    Headers and the development-only [details] are left out. *)
Inductive resp_body :=
| RespEmpty
| RespFailure (error message : jstr)
| RespValidation (message : jstr) (details : list jstr)
| RespCaught (e : js_error)
| RespResults (p : processed).

Record response := mkResponse { statusCode : nat; response_body : resp_body }.

Definition msg_tdz : jstr := s2j "Cannot access 'language' before initialization".

(** The outer [catch]: [error.message || (language === 'ar' ? ...)]
    reads the block-scoped [language] of the [try] only when the message
    is empty, which throws a ReferenceError out of the handler. *)
Definition catch_response (e : js_error) : promise response :=
  if message_truthy e then PFulfilled (mkResponse (error_status e) (RespCaught e))
  else PRejected (ReferenceError_ (s2j "language is not defined")).

Definition respond_processed (parse : jstr -> option jsval) (language : jstr) (apiResponse : jsval)
  : promise response :=
  match processSearchResults parse language apiResponse with
  | Ok p => PFulfilled (mkResponse 200 (RespResults p))
  | Throw m => catch_response (Error_ m)
  end.

Definition str_of (v : jsval) : jstr := match v with JStr s => s | _ => [] end.

Definition msg_doc_loading (language : jstr) : jstr :=
  by_language language
    [1601; 1588; 1604; 32; 1601; 1610; 32; 1578; 1581; 1605; 1610; 1604; 32; 1575; 1604;
     1608; 1579; 1575; 1574; 1602; 32; 1575; 1604; 1602; 1575; 1606; 1608; 1606; 1610; 1577]%N
    (s2j "Failed to load legal documents").

(** [query] and [language] of a POST ([None]: the body is not JSON or
    is [null]) or GET request. *)
Definition post_params (parse : jstr -> option jsval) (event : http_event) : option (jsval * jsval) :=
  match parse (to_js_string (js_or (event_body event) (JStr (s2j "{}")))) with
  | None => None
  | Some b =>
      match get_prop b (s2j "query"), get_prop b (s2j "language") with
      | Some q, Some l => Some (q, js_or l (JStr (s2j "en")))
      | _, _ => None
      end
  end.

Definition get_params (event : http_event) : jsval * jsval :=
  let params := js_or (queryStringParameters event) (JObj []) in
  (js_or (prop params (s2j "query")) (prop params (s2j "q")),
   js_or (js_or (prop params (s2j "language")) (prop params (s2j "lang"))) (JStr (s2j "en"))).

(** After validation: documents, then the partitioned path for an Arabic
    query longer than 10 code units once trimmed, the single stream
    otherwise.  On the partitioned path the [const apiResponse] of the
    [if] block is not the function-scoped [var apiResponse] read
    afterwards, which stays [undefined]. *)
Definition handle_search (keys : list jstr) (parse : jstr -> option jsval)
  (read_results : jsval -> sub_content)
  (loadLegalDocuments : jstr -> option (list (jstr * jsval)))
  (net : jstr -> chat_payload -> list stream_event) (query language : jstr) : promise response :=
  match loadLegalDocuments language with
  | None => PFulfilled (mkResponse 500 (RespFailure (s2j "Document loading error")
                                                     (msg_doc_loading language)))
  | Some documents =>
      if is_ar language && Nat.ltb 10 (length (trim query)) then
        match processPartitionedQuery keys parse read_results net query language documents with
        | PPending => PPending
        | PRejected e => catch_response e
        | PFulfilled _ => respond_processed parse language JUndef
        end
      else
        match optimizeDocumentsForArabic documents language with
        | None => catch_response TypeError_
        | Some optimizedDocs =>
            match streamDeepSeekAPI keys parse net
                    (createStreamingChatPayload query language (JObj optimizedDocs)) language with
            | PPending => PPending
            | PRejected e => catch_response e
            | PFulfilled streamResponse => respond_processed parse language streamResponse
            end
        end
  end.

(** [keys] is [DEEPSEEK_API_KEYS]; with no key the response object reads
    [language] inside its temporal dead zone. *)
Definition handler (keys : list jstr) (parse : jstr -> option jsval)
  (read_results : jsval -> sub_content)
  (loadLegalDocuments : jstr -> option (list (jstr * jsval)))
  (net : jstr -> chat_payload -> list stream_event) (event : http_event) : promise response :=
  if jstr_eqb (httpMethod event) (s2j "OPTIONS") then PFulfilled (mkResponse 200 RespEmpty)
  else
    match keys with
    | [] => catch_response (ReferenceError_ msg_tdz)
    | _ :: _ =>
        let params :=
          if jstr_eqb (httpMethod event) (s2j "POST") then Some (post_params parse event)
          else if jstr_eqb (httpMethod event) (s2j "GET") then Some (Some (get_params event))
          else None in
        match params with
        | None => PFulfilled (mkResponse 405 (RespFailure (s2j "Method not allowed")
                                                          (s2j "Only GET and POST methods are supported")))
        | Some None => PFulfilled (mkResponse 400 (RespFailure (s2j "Invalid JSON in request body")
                                                               (s2j "Please provide valid JSON data")))
        | Some (Some (query, language)) =>
            match validateRequest query language with
            | Throw _ => catch_response TypeError_
            | Ok validation =>
                if negb (isValid validation) then
                  PFulfilled (mkResponse 400 (RespValidation (join_with (s2j "; ") (errors validation))
                                                             (errors validation)))
                else handle_search keys parse read_results loadLegalDocuments net
                                   (str_of query) (str_of language)
            end
        end
    end.

(** ** streamDeepSeekAPI (api/search.js): one non-streaming request *)

(** How the single request ends: a request error, the 60 s timeout, or
    a response with its status code and body. *)
Inductive vercel_upstream :=
| VRequestError
| VTimeout
| VResponse (status : nat) (data : jstr).

Definition msg_search_service (language : jstr) : jstr :=
  by_language language
    [1582; 1591; 1571; 32; 1601; 1610; 32; 1582; 1583; 1605; 1577; 32; 1575; 1604; 1576; 1581; 1579]%N
    (s2j "Search service error").
Definition msg_invalid_response (language : jstr) : jstr :=
  by_language language
    [1575; 1587; 1578; 1580; 1575; 1576; 1577; 32; 1594; 1610; 1585; 32; 1589; 1581; 1610; 1581;
     1577; 32; 1605; 1606; 32; 1575; 1604; 1582; 1583; 1605; 1577]%N
    (s2j "Invalid service response").
Definition msg_parse_error (language : jstr) : jstr :=
  by_language language
    [1582; 1591; 1571; 32; 1601; 1610; 32; 1578; 1581; 1604; 1610; 1604; 32; 1575; 1604; 1575;
     1587; 1578; 1580; 1575; 1576; 1577]%N
    (s2j "Response parsing error").
Definition msg_request_error (language : jstr) : jstr :=
  by_language language [1582; 1591; 1571; 32; 1601; 1610; 32; 1575; 1604; 1591; 1604; 1576]%N
    (s2j "Request error").
Definition msg_timeout (language : jstr) : jstr :=
  by_language language
    [1575; 1606; 1578; 1607; 1578; 32; 1605; 1607; 1604; 1577; 32; 1575; 1604; 1591; 1604; 1576]%N
    (s2j "Request timeout").

(** [{ ...payload, stream: false }]. *)
Definition without_stream (p : chat_payload) : chat_payload :=
  mkPayload (model p) (arabic_prompts p) (prompt_documents p) (prompt_query p)
            (temperature_tenths p) (max_tokens p) false.

Definition streamDeepSeekAPI_vercel (keys : list jstr) (parse : jstr -> option jsval)
  (up : jstr -> chat_payload -> vercel_upstream) (payload : chat_payload) (language : jstr)
  : promise jsval :=
  match getNextApiKey keys language 0 with
  | Throw _ => PRejected (RejectObject (msg_config language) None)
  | Ok apiKey =>
      match up apiKey (without_stream payload) with
      | VRequestError => PRejected (RejectObject (msg_request_error language) None)
      | VTimeout => PRejected (RejectObject (msg_timeout language) None)
      | VResponse status responseData =>
          if negb (Nat.eqb status 200) then
            PRejected (RejectObject (msg_search_service language) None)
          else
            match parse responseData with
            | None => PRejected (RejectObject (msg_parse_error language) None)
            | Some parsed =>
                match get_prop parsed k_choices with
                | None => PRejected (RejectObject (msg_parse_error language) None)
                | Some ch =>
                    if truthy ch && truthy (prop ch (index_key 0)) then PFulfilled parsed
                    else PRejected (RejectObject (msg_invalid_response language) None)
                end
            end
      end
  end.

(** ** processPartitionedQuery (api/search.js) *)

Definition k_article_number : jstr := s2j "article_number".

(** What one partition adds to [allResults]: nothing when its request or
    the parsing of its answer fails (both are caught), the elements of
    [parsed.results] when that is an array; [None] while it is pending. *)
Definition partition_results (parse : jstr -> option jsval) (response : promise jsval)
  : option (list jsval) :=
  match response with
  | PPending => None
  | PRejected _ => Some []
  | PFulfilled resp =>
      let c0 := prop (prop resp k_choices) (index_key 0) in
      if truthy resp && truthy (prop resp k_choices) && truthy c0 then
        match get_prop c0 k_message with
        | None => Some []
        | Some m =>
            match get_prop m k_content with
            | None => Some []
            | Some content =>
                match parse (to_js_string content) with
                | None => Some []
                | Some parsed =>
                    match get_prop parsed k_results with
                    | Some (JArr rs) => Some rs
                    | _ => Some []
                    end
                end
            end
        end
      else Some []
  end.

(** The [for] loop over the partitions, awaiting each request in turn. *)
Definition collect_partitions (keys : list jstr) (parse : jstr -> option jsval)
  (up : jstr -> chat_payload -> vercel_upstream) (query language : jstr)
  (partitions : list jsval) : option (list jsval) :=
  match map_option (fun part =>
                      partition_results parse
                        (streamDeepSeekAPI_vercel keys parse up
                           (createStreamingChatPayload_vercel query language part) language))
                   partitions with
  | None => None
  | Some rss => Some (concat rss)
  end.

(** [Set.prototype.has] compares with SameValueZero; an object or array
    [article_number] comes from its own [JSON.parse] and is a reference
    no other result shares. *)
Definition same_value_zero (a b : jsval) : bool :=
  match a, b with
  | JUndef, JUndef | JNull, JNull => true
  | JBool x, JBool y => Bool.eqb x y
  | JNum x, JNum y => Z.eqb x y
  | JStr x, JStr y => jstr_eqb x y
  | _, _ => false
  end.

(** The [forEach] over [allResults] with [seenArticles]; reading
    [article_number] of a [null] or [undefined] result throws ([None]).
    [unique] is [uniqueResults] in order. *)
Fixpoint merge_unique (seen unique : list jsval) (l : list jsval) : option (list jsval) :=
  match l with
  | [] => Some unique
  | result :: t =>
      match get_prop result k_article_number with
      | None => None
      | Some an =>
          let articleId := js_or an (JStr (s2j "result_" ++ index_key (length unique))) in
          if existsb (same_value_zero articleId) seen then merge_unique seen unique t
          else merge_unique (articleId :: seen) (unique ++ [result]) t
      end
  end.

(** The response object, with [stringify] for [JSON.stringify]. *)
Definition partitioned_response (stringify : jsval -> jstr) (top : list jsval) : jsval :=
  JObj [(k_choices, JArr [JObj [(k_message, JObj [(k_content,
                                  JStr (stringify (JObj [(k_results, JArr top)])))]);
                                (s2j "finish_reason", JStr (s2j "stop"))]])].

(** [sort] is [uniqueResults.sort(...)] by descending [score || 0]; the
    comparator is not consistent for every value, so only its being a
    permutation is relied on. *)
Definition processPartitionedQuery_vercel (keys : list jstr) (parse : jstr -> option jsval)
  (up : jstr -> chat_payload -> vercel_upstream) (sort : list jsval -> list jsval)
  (stringify : jsval -> jstr) (query language : jstr) (documents : list (jstr * jsval))
  : promise jsval :=
  match collect_partitions keys parse up query language (partitionDocuments documents) with
  | None => PPending
  | Some allResults =>
      match merge_unique [] [] allResults with
      | None => PRejected TypeError_
      | Some uniqueResults => PFulfilled (partitioned_response stringify (firstn 3 (sort uniqueResults)))
      end
  end.

(** The article numbers of a result that are primitive and truthy. *)
Definition article_key (r : jsval) : list jsval :=
  match prop r k_article_number with
  | JStr (_ :: _) as a => [a]
  | JNum z as a => if Z.eqb z 0 then [] else [a]
  | JBool true => [JBool true]
  | _ => []
  end.

(** What one request of the retry loop met. *)
Definition retried_on (keys : list jstr) (up : nat -> jstr -> jsval -> upstream_event)
  (payload : jsval) (q : api_request) : Prop :=
  exists st b v, up (req_retry q) (req_key q) payload = HttpResponse st b /\
    parse_body b = Some v /\ (st = 429 \/ 500 <= st).

(** Consecutive code units of a string all satisfy [Q]. *)
Fixpoint adjacent (Q : N -> N -> Prop) (l : jstr) : Prop :=
  match l with
  | c :: t => match t with d :: _ => Q c d /\ adjacent Q t | [] => True end
  | [] => True
  end.

Definition spaced (c d : N) : Prop :=
  (c = 32%N -> d <> 32%N) /\ (is_latin c <> is_latin d -> c = 32%N \/ d = 32%N).

Definition infix_of (s x : jstr) : Prop := exists a b, s = a ++ x ++ b.

Definition sse_extends (st st' : sse_state) : Prop :=
  (exists ext, lastEventData st' = lastEventData st ++ ext) /\
  (sse_result st = PPending \/ sse_result st' = sse_result st).

Definition sse_quiet (language : jstr) (st : sse_state) : Prop :=
  lastEventData st = [] /\
  (sse_result st = PPending \/
   sse_result st = PRejected (RejectObject (msg_no_response language) None) \/
   sse_result st = PRejected (RejectObject (msg_stream_error language) None)).

(** A chunk of the delta stream: [{ choices: [{ delta: { content } }] }]. *)
Definition delta_chunk (content : jstr) : jsval :=
  JObj [(k_choices, JArr [JObj [(s2j "delta", JObj [(k_content, JStr content)])]])].

(** What a stream promise can be rejected with. *)
Definition stream_outcome (language : jstr) (p : promise jsval) : Prop :=
  match p with
  | PRejected e => e = RejectObject (msg_no_response language) None \/
                   e = RejectObject (msg_stream_error language) None
  | _ => True
  end.

Definition handler_post (event : http_event) (p : promise response) : Prop :=
  match p with
  | PRejected _ => False
  | PPending => True
  | PFulfilled r =>
      statusCode r = 200 ->
      (jstr_eqb (httpMethod event) (s2j "OPTIONS") = true /\ response_body r = RespEmpty) \/
      exists ps, response_body r = RespResults ps /\ length (ps_results ps) <= 3
  end.

Definition placeholder_seen (seen : list jsval) (n : nat) : Prop :=
  forall s, In (JStr s) seen -> is_prefix (s2j "result_") s = true ->
  exists j, j < n /\ s = s2j "result_" ++ index_key j.

(** ** Sample inputs *)

Definition demo_corpus : list (jstr * jsval) :=
  [(s2j "rules",
    JObj [(s2j "article_1", JObj [(k_title, JStr (s2j "Scope"));
                                  (k_text, JStr [1575; 1604; 65; 66; 32; 32; 1604]%N);
                                  (k_tables, JNull)]);
          (s2j "article_2", JObj [(k_title, JStr (s2j "Speed")); (k_text, JStr (s2j "x"))])])].

Definition demo_articles : jsval := JObj (map (fun i => (index_key i, JStr (s2j "a"))) (seq 0 5)).

(** A [JSON.parse] that knows one stream event [D], carrying the delta
    [C], and the answer [C]. *)
Definition demo_parse (s : jstr) : option jsval :=
  if jstr_eqb s (s2j "D") then Some (delta_chunk (s2j "C"))
  else if jstr_eqb s (s2j "C") then
    Some (JObj [(k_results, JArr [JObj [(k_title, JStr (s2j "T"));
                                        (k_article_number, JStr (s2j "5"))]])])
  else None.

Definition demo_net (apiKey : jstr) (payload : chat_payload) : list stream_event :=
  [SChunk (s2j "data: D"); SEnd].

Definition demo_load (language : jstr) : option (list (jstr * jsval)) := Some [].

Definition demo_read_results (v : jsval) : sub_content := Unparsable.

(** An upstream for api/search.js answering [R], whose content [C] lists
    two results numbered 5 and one without a number. *)
Definition demo_vparse (s : jstr) : option jsval :=
  if jstr_eqb s (s2j "R") then
    Some (JObj [(k_choices, JArr [JObj [(k_message, JObj [(k_content, JStr (s2j "C"))])]])])
  else if jstr_eqb s (s2j "C") then
    Some (JObj [(k_results, JArr [JObj [(k_article_number, JStr (s2j "5"))];
                                  JObj [(k_article_number, JStr (s2j "5"))]; JObj []])])
  else None.

Definition demo_up (apiKey : jstr) (payload : chat_payload) : vercel_upstream :=
  VResponse 200 (s2j "R").

(** [Array.prototype.sort] on an array already in order, and a
    [JSON.stringify] whose text is not looked at. *)
Definition demo_sort (l : list jsval) : list jsval := l.

Definition demo_stringify (v : jsval) : jstr := [].

Definition demo_results : list jsval :=
  [JObj [(k_article_number, JStr (s2j "5"))]; JObj []; JObj [(k_article_number, JStr (s2j "5"))];
   JObj [(k_article_number, JNum 0)]].

Definition arabic_query : jstr := repeat 1575%N 11.

(** ** Lemmas on preprocessArabicText *)

Lemma latin_not_ws (c : N) : is_latin c = true -> is_ws c = false.
Proof.
  unfold is_latin, is_ws; intros H.
  apply orb_true_iff in H.
  repeat rewrite ?andb_true_iff, ?N.leb_le in H.
  repeat rewrite orb_false_iff; repeat split;
    try (apply N.eqb_neq; lia).
  apply andb_false_iff; rewrite !N.leb_gt; lia.
Qed.

Lemma ws_not_latin (c : N) : is_ws c = true -> is_latin c = false.
Proof.
  intros H; destruct (is_latin c) eqn:E; [|reflexivity].
  rewrite (latin_not_ws c E) in H; discriminate.
Qed.

Lemma collapse_space_mid (t : jstr) (st : tstate) :
  st <> TStart ->
  lead st ++ collapse_ws_aux (inws_of st) (space_latin_aux (inrun_of st) t)
  = norm_aux st t ++ trail st t.
Proof.
  revert st; induction t as [|c t IH]; intros st Hst.
  - destruct st; try congruence; reflexivity.
  - unfold trail; simpl.
    destruct (is_ws c) eqn:W.
    + rewrite (ws_not_latin c W).
      specialize (IH TPend ltac:(discriminate)); simpl in IH.
      destruct st; try congruence; simpl; rewrite ?W; exact IH.
    + destruct (is_latin c) eqn:L.
      * specialize (IH TLatin ltac:(discriminate)); simpl in IH.
        unfold class_of; rewrite L.
        destruct st; try congruence; simpl; rewrite ?W, ?L; simpl;
          rewrite IH; reflexivity.
      * specialize (IH TOther ltac:(discriminate)); simpl in IH.
        unfold class_of; rewrite L.
        destruct st; try congruence; simpl; rewrite ?W, ?L; simpl;
          rewrite IH; reflexivity.
Qed.

Lemma collapse_space_start (t : jstr) (b : bool) :
  exists pre, Forall (fun c => is_ws c = true) pre /\
    collapse_ws_aux b (space_latin_aux false t)
    = pre ++ norm_aux TStart t ++ trail TStart t.
Proof.
  revert b; induction t as [|c t IH]; intros b.
  - exists []; split; [constructor | reflexivity].
  - unfold trail; simpl.
    destruct (is_ws c) eqn:W.
    + rewrite (ws_not_latin c W); simpl; rewrite W.
      destruct (IH true) as [pre [Hpre Heq]].
      exists (if b then pre else 32%N :: pre); split.
      * destruct b; [exact Hpre | constructor; [reflexivity | exact Hpre]].
      * destruct b; rewrite Heq; reflexivity.
    + unfold class_of; destruct (is_latin c) eqn:L; simpl.
      * pose proof (collapse_space_mid t TLatin ltac:(discriminate)) as M.
        simpl in M; rewrite W.
        exists (if b then [] else [32%N]); split.
        -- destruct b; repeat constructor.
        -- destruct b; simpl; rewrite M; reflexivity.
      * pose proof (collapse_space_mid t TOther ltac:(discriminate)) as M.
        simpl in M; rewrite W, M.
        exists []; split; [constructor | reflexivity].
Qed.

Lemma trim_start_ws_app (pre x : jstr) :
  Forall (fun c => is_ws c = true) pre -> trim_start (pre ++ x) = trim_start x.
Proof.
  induction 1 as [|c pre Hc _ IH]; [reflexivity|].
  simpl; rewrite Hc; exact IH.
Qed.

Lemma norm_aux_last (st : tstate) (t : jstr) :
  norm_aux st t = [] \/ exists y c, norm_aux st t = y ++ [c] /\ is_ws c = false.
Proof.
  revert st; induction t as [|c t IH]; intros st; [left; reflexivity|].
  simpl; destruct (is_ws c) eqn:W; [apply IH|].
  right; destruct (IH (class_of c)) as [E | [y [d [E Hd]]]]; rewrite E.
  - destruct (sep_before st c); [exists [32%N]|exists []]; exists c; auto.
  - destruct (sep_before st c); [exists (32%N :: c :: y)|exists (c :: y)];
      exists d; auto.
Qed.

Lemma norm_aux_start_head (t : jstr) :
  norm_aux TStart t = [] \/
  exists c y, norm_aux TStart t = c :: y /\ is_ws c = false.
Proof.
  induction t as [|c t IH]; [left; reflexivity|].
  simpl; destruct (is_ws c) eqn:W; [exact IH|].
  right; exists c, (norm_aux (class_of c) t); auto.
Qed.

Lemma trail_ws (st : tstate) (t : jstr) : Forall (fun c => is_ws c = true) (trail st t).
Proof. unfold trail; destruct (norm_final st t); repeat constructor. Qed.

Lemma trim_frame (pre x suf : jstr) :
  Forall (fun c => is_ws c = true) pre ->
  Forall (fun c => is_ws c = true) suf ->
  (x = [] \/ exists c y, x = c :: y /\ is_ws c = false) ->
  (x = [] \/ exists y c, x = y ++ [c] /\ is_ws c = false) ->
  trim (pre ++ x ++ suf) = x.
Proof.
  intros Hpre Hsuf Hhd Htl; unfold trim.
  rewrite trim_start_ws_app by exact Hpre.
  destruct Hhd as [-> | [c [y [-> Hc]]]].
  - pose proof (trim_start_ws_app suf [] Hsuf) as T.
    rewrite app_nil_r in T; simpl in *; rewrite T; reflexivity.
  - simpl; rewrite Hc.
    destruct Htl as [E | [y' [d [E Hd]]]]; [discriminate|].
    change (c :: y ++ suf) with ((c :: y) ++ suf); rewrite E.
    rewrite rev_app_distr, trim_start_ws_app by (apply Forall_rev; exact Hsuf).
    rewrite rev_app_distr; simpl; rewrite Hd.
    simpl; rewrite rev_involutive; reflexivity.
Qed.

(** [preprocessArabicText] is the one-pass normaliser. *)
Lemma preprocessArabicText_norm (s : jstr) :
  preprocessArabicText s = norm_aux TStart s.
Proof.
  destruct s as [|c t]; [reflexivity|].
  unfold preprocessArabicText, collapse_ws, space_latin.
  destruct (collapse_space_start (c :: t) false) as [pre [Hpre ->]].
  apply trim_frame; [exact Hpre | apply trail_ws | apply norm_aux_start_head | apply norm_aux_last].
Qed.

Lemma norm_aux_fix (t : jstr) (st st' : tstate) :
  compat st st' -> norm_aux st' (norm_aux st t) = norm_aux st t.
Proof.
  revert st st'; induction t as [|c t IH]; intros st st' Hc; [reflexivity|].
  simpl; destruct (is_ws c) eqn:W.
  - apply IH; inversion Hc; constructor.
  - assert (HW32 : is_ws 32 = true) by reflexivity.
    assert (Hcl : compat (class_of c) (class_of c))
      by (unfold class_of; destruct (is_latin c); constructor).
    inversion Hc; subst; unfold sep_before; destruct (is_latin c) eqn:L;
      simpl; rewrite ?HW32, ?W; simpl; rewrite ?L; simpl;
      rewrite (IH _ _ Hcl); reflexivity.
Qed.

(** ** Tests *)

Example split_en_test :
  splitQueryIntelligently (s2j "rules for horses and rules for riders") (s2j "en")
  = [s2j "rules for horses"; s2j "rules for riders"].
Proof. vm_compute. reflexivity. Qed.

Example split_test2 : split (s2j "a and ") (s2j " and ") = [s2j "a"; []].
Proof. vm_compute. reflexivity. Qed.

Example split_ar_test :
  splitQueryIntelligently ([1605;1575;1583;1577;32;1608;32;1593;1602;1608;1576;1577]%N) lang_ar
  = [[1605;1575;1583;1577]]%N.
Proof. vm_compute. reflexivity. Qed.

Example preprocess_test :
  preprocessArabicText (s2j "  ab12  CD  x ") = s2j "ab 12 CD x".
Proof. vm_compute. reflexivity. Qed.

Example partition55_sizes :
  map partition_size (partitionDocuments corpus55) = [19; 19; 17].
Proof. vm_compute. reflexivity. Qed.

Example index_key_test : index_key 54 = s2j "54".
Proof. reflexivity. Qed.

(** ** Supporting lemmas *)

Lemma jstr_eqb_eq (a b : jstr) : jstr_eqb a b = true <-> a = b.
Proof.
  revert b; induction a as [|x a IH]; intros [|y b]; simpl;
    try (split; intros H; discriminate H || reflexivity).
  rewrite andb_true_iff, N.eqb_eq, IH; split.
  - intros [-> ->]; reflexivity.
  - intros H; inversion H; auto.
Qed.

Lemma artnum_eqb_eq (a b : artnum) : artnum_eqb a b = true <-> a = b.
Proof.
  destruct a, b; simpl; try (split; intros H; discriminate H || reflexivity).
  - rewrite jstr_eqb_eq; split; [intros ->|intros H; inversion H]; reflexivity.
  - rewrite Z.eqb_eq; split; [intros ->|intros H; inversion H]; reflexivity.
Qed.

Lemma trim_start_length (s : jstr) : length (trim_start s) <= length s.
Proof.
  induction s as [|c s IH]; simpl; [lia|].
  destruct (is_ws c); simpl; lia.
Qed.

Lemma trim_length (s : jstr) : length (trim s) <= length s.
Proof.
  unfold trim; rewrite length_rev.
  pose proof (trim_start_length (rev (trim_start s))) as H1.
  rewrite length_rev in H1.
  pose proof (trim_start_length s); lia.
Qed.

Lemma split_round_no_connector (q splitter : jstr) :
  includes q splitter = false -> split_round [q] splitter = [q].
Proof. intros H; unfold split_round; simpl; rewrite H; reflexivity. Qed.

Lemma fold_split_no_connector (q : jstr) (splitters : list jstr) :
  Forall (fun c => includes q c = false) splitters ->
  fold_left split_round splitters [q] = [q].
Proof.
  induction 1 as [|c cs Hc _ IH]; [reflexivity|].
  cbn [fold_left]; rewrite split_round_no_connector by exact Hc; exact IH.
Qed.

(** ** Claims *)

(** C10: [preprocessArabicText] (spacing of Latin-letter runs, whitespace
    normalisation, trimming) is idempotent: applying it twice gives the
    same string as applying it once. *)
Theorem preprocessArabicText_idempotent (s : jstr) :
  preprocessArabicText (preprocessArabicText s) = preprocessArabicText s.
Proof.
  rewrite !preprocessArabicText_norm.
  apply norm_aux_fix; constructor.
Qed.

(** C7: with a non-empty pool the key at index
    [(retryAttempt + bias) mod poolSize] is selected, bias 1 for Arabic and
    0 otherwise; selection throws "No DeepSeek API keys configured" exactly
    when the pool is empty; and the Arabic and English requests at attempt
    0 use different indices whenever the pool has at least two keys. *)
Theorem getNextApiKey_selection (keys : list jstr) (language : jstr) (retryAttempt : nat) :
  (keys <> [] ->
   getNextApiKey keys language retryAttempt
   = Ok (nth (spec_select_index language retryAttempt (length keys)) keys [])) /\
  key_index language retryAttempt (length keys)
  = spec_select_index language retryAttempt (length keys) /\
  (getNextApiKey keys language retryAttempt = Throw msg_no_keys <-> keys = []) /\
  (2 <= length keys ->
   key_index lang_ar 0 (length keys) <> key_index (s2j "en") 0 (length keys)).
Proof.
  assert (Hk : key_index language retryAttempt (length keys)
               = spec_select_index language retryAttempt (length keys)).
  { unfold key_index, spec_select_index, spec_bias.
    destruct (is_ar language); rewrite ?Nat.add_0_r; reflexivity. }
  split; [|split; [exact Hk|split]].
  - intros Hne; destruct keys as [|k ks]; [congruence|].
    unfold getNextApiKey; rewrite Hk; reflexivity.
  - destruct keys; simpl; split; intros H; try reflexivity; discriminate.
  - intros H2; unfold key_index; simpl.
    rewrite Nat.mod_small by lia; rewrite Nat.Div0.mod_0_l; discriminate.
Qed.

(** C6 (as the code does it): a query containing no connector of its
    language comes back as the single sub-query [query] itself, as passed
    and not trimmed. *)
Theorem splitQueryIntelligently_no_connector (query language : jstr) :
  (is_ar language = false -> includes query (s2j " and ") = false ->
   splitQueryIntelligently query language = [query]) /\
  (is_ar language = true -> Forall (fun c => includes query c = false) arabicSplitters ->
   splitQueryIntelligently query language = [query]).
Proof.
  split; intros Hl Hc; unfold splitQueryIntelligently; rewrite Hl; cbn [negb].
  - rewrite Hc; reflexivity.
  - rewrite fold_split_no_connector by exact Hc; simpl.
    destruct (Nat.ltb 2 (length (trim query))); reflexivity.
Qed.

(** C3 (as the code does it): when no sub-query succeeded the aggregator
    returns an empty result list, [total_results = 0], the requested
    language and the failure message in that language, and sets neither
    [partitioned_search] nor [sub_queries_processed]. *)
Theorem aggregateQueryResults_all_failed (subResults : list settled) (originalQuery language : jstr) :
  Forall (fun r => match r with Fulfilled v => sv_success v = false | Rejected => True end)
         subResults ->
  aggregateQueryResults subResults originalQuery language
  = {| results := []; total_results := 0; query_language := language;
       error := Some (if is_ar language then msg_failed_ar else msg_failed_en);
       partitioned_search := None; sub_queries_processed := None |}.
Proof.
  intros Hf; unfold aggregateQueryResults.
  replace (successfulResults subResults) with (@nil sub_content); [reflexivity|].
  induction Hf as [|r rs Hr _ IH]; [reflexivity|].
  unfold successfulResults in *; simpl.
  destruct r as [v|]; [rewrite Hr|]; exact IH.
Qed.

(** C3: the claim as stated fails: with no successful sub-query the
    response carries no [partitioned_search = true] flag. *)
Lemma aggregateQueryResults_all_failed_no_flag :
  partitioned_search (aggregateQueryResults [Rejected] (s2j "q") (s2j "en")) <> Some true.
Proof. vm_compute. discriminate. Qed.

(** C6: the claim as stated fails: an English query with surrounding
    spaces and no " and " comes back untrimmed. *)
Lemma splitQueryIntelligently_untrimmed :
  splitQueryIntelligently (s2j " rules ") (s2j "en") <> [trim (s2j " rules ")].
Proof. vm_compute. discriminate. Qed.

Lemma partition_loop_props {A} (fuel size : nat) (ents : list A) (i : nat) :
  0 < size -> length ents - i <= fuel ->
  concat (partition_loop fuel size ents i) = skipn i ents /\
  Forall (fun p => 0 < length p /\ length p <= size) (partition_loop fuel size ents i) /\
  Forall (fun p => length p = size) (removelast (partition_loop fuel size ents i)).
Proof.
  intros Hs; revert i; induction fuel as [|f IH]; intros i Hf.
  - simpl; rewrite skipn_all2 by lia; repeat constructor.
  - simpl; destruct (Nat.ltb i (length ents)) eqn:Hi.
    + apply Nat.ltb_lt in Hi.
      destruct (IH (i + size) ltac:(lia)) as [Hc [Hb Hl]].
      split; [|split].
      * simpl; rewrite Hc, Nat.add_comm, <- skipn_skipn; apply firstn_skipn.
      * constructor; [|exact Hb].
        rewrite length_firstn, length_skipn; lia.
      * destruct f as [|f'].
        -- constructor.
        -- simpl in Hl |- *.
           destruct (Nat.ltb (i + size) (length ents)) eqn:Hi2; [|constructor].
           apply Nat.ltb_lt in Hi2.
           constructor; [|exact Hl].
           rewrite length_firstn, length_skipn; lia.
    + apply Nat.ltb_ge in Hi; rewrite skipn_all2 by lia; repeat constructor.
Qed.

(** C5: the claim as stated fails: an English query with four " and "
    separators gives five sub-queries of one character. *)
Lemma splitQueryIntelligently_short_parts :
  let r := splitQueryIntelligently (s2j "a and b and c and d and e") (s2j "en") in
  r = [s2j "a"; s2j "b"; s2j "c"; s2j "d"; s2j "e"] /\
  ~ (Forall (fun q => 2 < length q) r /\ length r <= 4).
Proof.
  vm_compute; split; [reflexivity|].
  intros [H _]; inversion H as [|? ? Hq]; lia.
Qed.

(** C5 (as the code does it): for Arabic the splitter returns between one
    and three sub-queries each longer than 2 code units, or falls back to
    the single original query; for any other language it returns the
    trimmed parts around " and " (no length filter, no count cap), or the
    query itself when it has no " and ". *)
Theorem splitQueryIntelligently_shape (query language : jstr) :
  (is_ar language = true ->
   (1 <= length (splitQueryIntelligently query language) <= 3 /\
    Forall (fun q => 2 < length q) (splitQueryIntelligently query language)) \/
   splitQueryIntelligently query language = [query]) /\
  (is_ar language = false ->
   splitQueryIntelligently query language
   = if includes query (s2j " and ") then map trim (split query (s2j " and "))
     else [query]).
Proof.
  split; intros Hl; unfold splitQueryIntelligently; rewrite Hl; cbn [negb];
    [|reflexivity].
  set (sq0 := fold_left split_round arabicSplitters [query]).
  set (sq1 := if Nat.ltb 3 (length sq0) then firstn 3 sq0 else sq0).
  set (sq2 := filter (fun q => Nat.ltb 2 (length (trim q))) sq1).
  assert (H1 : length sq1 <= 3).
  { unfold sq1; destruct (Nat.ltb 3 (length sq0)) eqn:E.
    - apply firstn_le_length.
    - apply Nat.ltb_ge in E; exact E. }
  assert (H2 : length sq2 <= length sq1) by apply filter_length_le.
  assert (H3 : Forall (fun q => 2 < length q) sq2).
  { apply Forall_forall; intros q Hq; unfold sq2 in Hq.
    apply filter_In in Hq as [_ Hq]; apply Nat.ltb_lt in Hq.
    pose proof (trim_length q); lia. }
  destruct (Nat.ltb (length sq2) 1 || Nat.ltb 4 (length sq2)) eqn:E.
  - right; reflexivity.
  - left; apply orb_false_iff in E as [E1 E2]; apply Nat.ltb_ge in E1.
    split; [lia | exact H3].
Qed.

(** C9: the claim as stated fails: [partitionDocuments] always uses three
    chunks, so 55 articles are not split into [14; 14; 14; 13]. *)
Lemma partitionDocuments_55_not_four :
  map partition_size (partitionDocuments corpus55) <> [14; 14; 14; 13].
Proof. vm_compute. discriminate. Qed.

(** C9 (as the code does it): with a truthy first section of [n] articles,
    [partitionDocuments] returns partition objects holding that section's
    entries in consecutive non-empty chunks of size at most [ceil(n/3)],
    all of exactly that size except the last, whose concatenation is the
    whole article list in order (every article exactly once). *)
Theorem partitionDocuments_cover (mainKey : jstr) (articles : jsval) (rest : list (jstr * jsval)) :
  truthy articles = true ->
  exists parts,
    partitionDocuments ((mainKey, articles) :: rest)
    = map (fun part => JObj [(mainKey, JObj part)]) parts /\
    concat parts = entries articles /\
    Forall (fun p => 0 < length p /\ length p <= ceil_div3 (length (entries articles))) parts /\
    Forall (fun p => length p = ceil_div3 (length (entries articles))) (removelast parts).
Proof.
  intros Ht; unfold partitionDocuments; rewrite Ht; cbn [negb].
  set (ents := entries articles).
  exists (partition_loop (length ents) (ceil_div3 (length ents)) ents 0).
  split; [reflexivity|].
  destruct ents as [|e es] eqn:Ee.
  - simpl; repeat constructor.
  - assert (Hs : 0 < ceil_div3 (length (e :: es))).
    { unfold ceil_div3; apply Nat.div_str_pos; simpl; lia. }
    destruct (partition_loop_props (length (e :: es)) _ (e :: es) 0 Hs ltac:(lia))
      as [Hc [Hb Hl]].
    split; [exact Hc | split; assumption].
Qed.

Lemma map_option_Forall2 {A B} (f : A -> option B) (l : list A) (l' : list B) :
  map_option f l = Some l' -> Forall2 (fun x y => f x = Some y) l l'.
Proof.
  revert l'; induction l as [|x l IH]; intros l' H; simpl in H.
  - inversion H; constructor.
  - destruct (f x) eqn:Fx, (map_option f l) eqn:Fl; try discriminate.
    inversion H; subst; constructor; [exact Fx | apply IH; reflexivity].
Qed.

Lemma Forall2_fst_map {A B} (l l' : list (A * B)) :
  Forall2 (fun x y => fst x = fst y) l l' -> map fst l = map fst l'.
Proof. induction 1; simpl; congruence. Qed.

Lemma Forall2_same {A} (l l' : list A) : Forall2 (fun x y => Some x = Some y) l l' -> l = l'.
Proof. induction 1 as [|x y l l' H _ IH]; [reflexivity|]; inversion H; congruence. Qed.

Lemma optimize_article_key (language : jstr) (e f : jstr * jsval) :
  optimize_article language e = Some f -> fst e = fst f.
Proof.
  destruct e as [k a]; unfold optimize_article.
  destruct (is_ar language); [|intros H; inversion H; reflexivity].
  destruct (get_prop a k_title), (get_prop a k_text), (get_prop a k_tables);
    try discriminate.
  destruct (preprocess_val _); intros H; inversion H; reflexivity.
Qed.

(** C4: the claim as stated fails: the appendix section is dropped for
    both languages, and for Arabic the [article_number] field as well. *)
Lemma optimizeDocumentsForArabic_drops_content :
  optimizeDocumentsForArabic docs_with_appendix (s2j "ar")
  = Some [(s2j "articles",
           JObj [(s2j "0", JObj [(k_title, JStr (s2j "T")); (k_text, JStr (s2j "x"));
                                 (k_tables, JUndef)])])] /\
  optimizeDocumentsForArabic docs_with_appendix (s2j "en")
  = Some [(s2j "articles",
           JObj [(s2j "0", JObj [(s2j "article_number", JNum 100%Z);
                                 (k_title, JStr (s2j "T")); (k_text, JStr (s2j "x"))])])].
Proof. split; vm_compute; reflexivity. Qed.

(** C4 (as the code does it): the optimised corpus holds only the first
    top-level section, with every one of its entries under the same key and
    in the same order; English entries are kept unchanged, and each Arabic
    entry is rebuilt with exactly [title], the preprocessed [text] and
    [Time_Penalty_Tables] (other fields are dropped). *)
Theorem optimizeDocumentsForArabic_first_section (mainKey : jstr) (articles : jsval)
  (rest : list (jstr * jsval)) (language : jstr) (out : list (jstr * jsval)) :
  truthy articles = true ->
  optimizeDocumentsForArabic ((mainKey, articles) :: rest) language = Some out ->
  exists fs,
    out = [(mainKey, JObj fs)] /\
    map fst fs = map fst (entries articles) /\
    (is_ar language = false -> fs = entries articles) /\
    (is_ar language = true ->
     Forall2 (fun e f =>
                exists t tx tb x,
                  get_prop (snd e) k_title = Some t /\
                  get_prop (snd e) k_text = Some tx /\
                  preprocess_val tx = Some x /\
                  get_prop (snd e) k_tables = Some tb /\
                  snd f = JObj [(k_title, t); (k_text, JStr x); (k_tables, js_or tb JUndef)])
             (entries articles) fs).
Proof.
  intros Ht Hout; unfold optimizeDocumentsForArabic in Hout; rewrite Ht in Hout.
  cbn [negb] in Hout.
  destruct (map_option (optimize_article language) (entries articles)) as [fs|] eqn:E;
    [|discriminate].
  inversion Hout; subst; clear Hout.
  apply map_option_Forall2 in E.
  exists fs; split; [reflexivity|split; [|split]].
  - symmetry; apply Forall2_fst_map.
    eapply Forall2_impl; [|exact E]; intros e f H; exact (optimize_article_key _ _ _ H).
  - intros Hl; symmetry; apply Forall2_same.
    eapply Forall2_impl; [|exact E]; intros [k a] f H.
    unfold optimize_article in H; rewrite Hl in H; exact H.
  - intros Hl; eapply Forall2_impl; [|exact E]; intros [k a] f H.
    unfold optimize_article in H; rewrite Hl in H; simpl.
    destruct (get_prop a k_title) as [t|], (get_prop a k_text) as [tx|],
      (get_prop a k_tables) as [tb|]; try discriminate.
    destruct (preprocess_val tx) as [x|] eqn:Px; [|discriminate].
    inversion H; subst; simpl.
    exists t, tx, tb, x; repeat split; assumption || reflexivity.
Qed.

(** On a 429 or 5xx response with a parsable body, the call retries with
    [retryCount + 1] and the same payload exactly when
    [retryCount < length keys - 1], and rejects otherwise. *)
Lemma searchDeepSeekAPI_fuel_throttled (fuel : nat) (keys : list jstr)
  (up : nat -> jstr -> jsval -> upstream_event) (payload : jsval) (language : jstr)
  (r st : nat) (b : body) (v : jsval) :
  keys <> [] ->
  up r (nth (key_index language r (length keys)) keys []) payload = HttpResponse st b ->
  parse_body b = Some v -> (st = 429 \/ 500 <= st) ->
  searchDeepSeekAPI_fuel (S fuel) keys up payload language r
  = let req := mkRequest r (key_index language r (length keys))
                         (nth (key_index language r (length keys)) keys []) payload in
    if Nat.ltb r (length keys - 1) then
      let (reqs, out) := searchDeepSeekAPI_fuel fuel keys up payload language (S r) in
      (req :: reqs, out)
    else ([req], RejectedWith (RejStatus st)).
Proof.
  intros Hk Hup Hb Hst.
  assert (H2 : Nat.leb 200 st && Nat.ltb st 300 = false).
  { apply andb_false_iff; right; apply Nat.ltb_ge; lia. }
  assert (H3 : (Nat.eqb st 429 || Nat.leb 500 st) = true).
  { destruct Hst as [-> | Hst]; [reflexivity|].
    apply orb_true_iff; right; apply Nat.leb_le; exact Hst. }
  destruct keys as [|k ks]; [congruence|].
  cbn [searchDeepSeekAPI_fuel getNextApiKey]; rewrite Hup, Hb, H2, H3.
  destruct (Nat.ltb r (length (k :: ks) - 1)); reflexivity.
Qed.

Example retry_three_keys_en :
  searchDeepSeekAPI keys3 throttled_twice (JObj []) (s2j "en") 0
  = ([mkRequest 0 0 (s2j "key-1") (JObj []); mkRequest 1 1 (s2j "key-2") (JObj []);
      mkRequest 2 2 (s2j "key-3") (JObj [])], Resolved (JObj [])).
Proof. vm_compute. reflexivity. Qed.

Example retry_three_keys_ar :
  map req_key_index (fst (searchDeepSeekAPI keys3 throttled_twice (JObj []) lang_ar 0))
  = [1; 2; 0] /\
  snd (searchDeepSeekAPI keys3 throttled_twice (JObj []) lang_ar 0) = Resolved (JObj []).
Proof. vm_compute. split; reflexivity. Qed.

(** C8 (divergence): a 503 response whose body is not JSON is rejected
    as a parse failure after one request: [JSON.parse] of the body runs
    before the status check, so the retry branch for 429/5xx is never
    reached although [retryCount = 0 < length keys - 1 = 2]. *)
Theorem searchDeepSeekAPI_unparsable_503_no_retry :
  searchDeepSeekAPI keys3 unparsable_503 (JObj []) (s2j "en") 0
  = ([mkRequest 0 0 (s2j "key-1") (JObj [])], RejectedWith (RejParse 503)).
Proof. vm_compute. reflexivity. Qed.

(** *** Sorting by score *)

Lemma insert_desc_perm (x : search_result) (l : list search_result) :
  Permutation (x :: l) (insert_desc x l).
Proof.
  induction l as [|y t IH]; simpl; [reflexivity|].
  destruct (Z.leb (score_key y) (score_key x)); [reflexivity|].
  rewrite perm_swap; constructor; exact IH.
Qed.

Lemma sort_by_score_perm (l : list search_result) : Permutation l (sort_by_score l).
Proof.
  induction l as [|x t IH]; simpl; [reflexivity|].
  rewrite <- insert_desc_perm; constructor; exact IH.
Qed.

Lemma insert_desc_hd (x y : search_result) (l : list search_result) :
  HdRel score_desc y l -> score_desc y x -> HdRel score_desc y (insert_desc x l).
Proof.
  intros H Hyx; destruct l as [|z t]; simpl; [constructor; exact Hyx|].
  destruct (Z.leb (score_key z) (score_key x)); constructor; [exact Hyx|].
  inversion H; assumption.
Qed.

Lemma insert_desc_sorted (x : search_result) (l : list search_result) :
  Sorted score_desc l -> Sorted score_desc (insert_desc x l).
Proof.
  induction 1 as [|y t Ht IH Hy]; simpl; [repeat constructor|].
  destruct (Z.leb (score_key y) (score_key x)) eqn:E.
  - apply Z.leb_le in E; constructor; [constructor; [exact Ht|exact Hy]|constructor; exact E].
  - apply Z.leb_gt in E; constructor; [exact IH|].
    apply insert_desc_hd; [exact Hy|unfold score_desc; lia].
Qed.

Lemma sort_by_score_sorted (l : list search_result) : Sorted score_desc (sort_by_score l).
Proof.
  induction l as [|x t IH]; simpl; [constructor|].
  apply insert_desc_sorted; exact IH.
Qed.

Lemma insert_desc_filter_score (k : Z) (x : search_result) (l : list search_result) :
  filter (fun r => Z.eqb (score_key r) k) (insert_desc x l)
  = filter (fun r => Z.eqb (score_key r) k) (x :: l).
Proof.
  induction l as [|y t IH]; [reflexivity|].
  cbn [insert_desc]; destruct (Z.leb (score_key y) (score_key x)) eqn:E; [reflexivity|].
  apply Z.leb_gt in E.
  cbn [filter] in IH |- *; rewrite IH.
  destruct (Z.eqb (score_key x) k) eqn:Ex, (Z.eqb (score_key y) k) eqn:Ey; try reflexivity.
  apply Z.eqb_eq in Ex, Ey; lia.
Qed.

Lemma sort_by_score_filter_score (k : Z) (l : list search_result) :
  filter (fun r => Z.eqb (score_key r) k) (sort_by_score l)
  = filter (fun r => Z.eqb (score_key r) k) l.
Proof.
  induction l as [|x t IH]; [reflexivity|].
  cbn [sort_by_score]; rewrite insert_desc_filter_score.
  cbn [filter]; rewrite IH; reflexivity.
Qed.

Lemma firstn_sorted {A} (R : A -> A -> Prop) (n : nat) (l : list A) :
  Sorted R l -> Sorted R (firstn n l).
Proof.
  revert n; induction l as [|x t IH]; intros n H; [destruct n; constructor|].
  destruct n as [|n]; simpl; [constructor|].
  inversion H as [|? ? Ht Hx]; subst.
  constructor; [apply IH; exact Ht|].
  destruct t as [|y t'], n as [|n]; simpl; try constructor.
  inversion Hx; assumption.
Qed.

Lemma Permutation_filter_length {A} (f : A -> bool) (l l' : list A) :
  Permutation l l' -> length (filter f l) = length (filter f l').
Proof.
  induction 1; simpl; try reflexivity.
  - destruct (f x); simpl; congruence.
  - destruct (f x), (f y); reflexivity.
  - congruence.
Qed.

Lemma filter_firstn_length {A} (f : A -> bool) (n : nat) (l : list A) :
  length (filter f (firstn n l)) <= length (filter f l).
Proof.
  revert n; induction l as [|x t IH]; intros [|n]; simpl; try lia.
  destruct (f x); simpl; specialize (IH n); lia.
Qed.

Lemma in_firstn {A} (x : A) (n : nat) (l : list A) : In x (firstn n l) -> In x l.
Proof.
  intros H; rewrite <- (firstn_skipn n l); apply in_or_app; left; exact H.
Qed.

(** *** The aggregator *)

Lemma aggregateQueryResults_results (subResults : list settled) (originalQuery language : jstr) :
  results (aggregateQueryResults subResults originalQuery language)
  = firstn 3 (sort_by_score (dedup_seen [] (flattened subResults))).
Proof.
  unfold aggregateQueryResults, flattened.
  destruct (successfulResults subResults); reflexivity.
Qed.

Lemma successfulResults_in (subResults : list settled) (v : sub_value) :
  In (Fulfilled v) subResults -> sv_success v = true ->
  In (sv_response v) (successfulResults subResults).
Proof.
  intros Hin Hs; unfold successfulResults; apply in_flat_map.
  exists (Fulfilled v); split; [exact Hin|]; rewrite Hs; left; reflexivity.
Qed.

Lemma existsb_artnum (a : artnum) (seen : list artnum) :
  existsb (artnum_eqb a) seen = true <-> In a seen.
Proof.
  rewrite existsb_exists; split.
  - intros [b [Hb E]]; apply artnum_eqb_eq in E; subst; exact Hb.
  - intros H; exists a; split; [exact H|apply artnum_eqb_eq; reflexivity].
Qed.

Lemma dedup_seen_fresh (seen : list artnum) (l : list search_result) (r : search_result) :
  In r (dedup_seen seen l) -> ~ In (article_number r) seen.
Proof.
  revert seen; induction l as [|x t IH]; intros seen H; [destruct H|].
  simpl in H; destruct (existsb (artnum_eqb (article_number x)) seen) eqn:E.
  - exact (IH _ H).
  - destruct H as [<- | H].
    + intros Hin; apply existsb_artnum in Hin; congruence.
    + intros Hin; apply (IH _ H); right; exact Hin.
Qed.

Lemma dedup_seen_first (seen : list artnum) (l : list search_result) (r : search_result) :
  In r (dedup_seen seen l) ->
  find (fun r' => artnum_eqb (article_number r') (article_number r)) l = Some r.
Proof.
  revert seen; induction l as [|x t IH]; intros seen H; [destruct H|].
  simpl in H |- *; destruct (existsb (artnum_eqb (article_number x)) seen) eqn:E.
  - assert (Hne : artnum_eqb (article_number x) (article_number r) = false).
    { destruct (artnum_eqb (article_number x) (article_number r)) eqn:F; [|reflexivity].
      apply artnum_eqb_eq in F; apply existsb_artnum in E.
      exfalso; apply (dedup_seen_fresh _ _ _ H); rewrite <- F; exact E. }
    rewrite Hne; exact (IH _ H).
  - destruct H as [<- | H].
    + replace (artnum_eqb (article_number x) (article_number x)) with true
        by (symmetry; apply artnum_eqb_eq; reflexivity); reflexivity.
    + assert (Hne : artnum_eqb (article_number x) (article_number r) = false).
      { destruct (artnum_eqb (article_number x) (article_number r)) eqn:F; [|reflexivity].
        apply artnum_eqb_eq in F.
        exfalso; apply (dedup_seen_fresh _ _ _ H); left; exact F. }
      rewrite Hne; exact (IH _ H).
Qed.

Lemma dedup_seen_count (id : artnum) (seen : list artnum) (l : list search_result) :
  length (filter (fun r => artnum_eqb (article_number r) id) (dedup_seen seen l))
  <= (if existsb (artnum_eqb id) seen then 0 else 1).
Proof.
  revert seen; induction l as [|x t IH]; intros seen; simpl.
  - destruct (existsb (artnum_eqb id) seen); lia.
  - destruct (existsb (artnum_eqb (article_number x)) seen) eqn:E; [apply IH|].
    simpl; destruct (artnum_eqb (article_number x) id) eqn:F.
    + apply artnum_eqb_eq in F; subst id.
      specialize (IH (article_number x :: seen)); simpl in IH.
      replace (artnum_eqb (article_number x) (article_number x)) with true in IH
        by (symmetry; apply artnum_eqb_eq; reflexivity).
      rewrite E; simpl in IH |- *; lia.
    + specialize (IH (article_number x :: seen)); simpl in IH.
      replace (artnum_eqb id (article_number x)) with false in IH; [exact IH|].
      symmetry; destruct (artnum_eqb id (article_number x)) eqn:G; [|reflexivity].
      apply artnum_eqb_eq in G; subst id.
      rewrite <- F; symmetry; apply artnum_eqb_eq; reflexivity.
Qed.

Example aggregate_scores_order :
  map score_key (results (aggregateQueryResults outcomes_scores (s2j "q") (s2j "en")))
  = [90; 50; 10]%Z.
Proof. vm_compute. reflexivity. Qed.

(** C2: when at least one sub-query succeeded, the aggregated response is
    flagged [partitioned_search = true] and holds at most 3 results, sorted
    by descending score (a missing score counting as 0); they are the first
    3 of a permutation of the deduplicated results that is sorted by
    descending score and keeps, for every score, the relative order of the
    results with that score (a stable sort). *)
Theorem aggregateQueryResults_top3_sorted (subResults : list settled)
  (originalQuery language : jstr) :
  (exists v, In (Fulfilled v) subResults /\ sv_success v = true) ->
  partitioned_search (aggregateQueryResults subResults originalQuery language) = Some true /\
  length (results (aggregateQueryResults subResults originalQuery language)) <= 3 /\
  Sorted score_desc (results (aggregateQueryResults subResults originalQuery language)) /\
  exists sorted,
    results (aggregateQueryResults subResults originalQuery language) = firstn 3 sorted /\
    Permutation (dedup_seen [] (flattened subResults)) sorted /\
    Sorted score_desc sorted /\
    (forall k, filter (fun r => Z.eqb (score_key r) k) sorted
               = filter (fun r => Z.eqb (score_key r) k) (dedup_seen [] (flattened subResults))).
Proof.
  intros [v [Hin Hs]].
  pose proof (successfulResults_in _ _ Hin Hs) as Hsucc.
  rewrite aggregateQueryResults_results.
  split; [|split; [|split]].
  - unfold aggregateQueryResults.
    destruct (successfulResults subResults); [destruct Hsucc|reflexivity].
  - apply firstn_le_length.
  - apply firstn_sorted, sort_by_score_sorted.
  - exists (sort_by_score (dedup_seen [] (flattened subResults))).
    split; [reflexivity|split; [apply sort_by_score_perm|split]].
    + apply sort_by_score_sorted.
    + intros k; apply sort_by_score_filter_score.
Qed.

(** C1: the claim as stated fails: both sub-queries return article 105, yet
    the aggregated list holds no entry for it, since only the three
    best-scored results are kept. *)
Lemma aggregateQueryResults_105_truncated :
  length (filter (fun r => artnum_eqb (article_number r) (AStr (s2j "105")))
                 (results (aggregateQueryResults outcomes_105 (s2j "q") (s2j "en")))) = 0.
Proof. vm_compute. reflexivity. Qed.

(** C1 (as the code does it): results are deduplicated by [article_number]
    in flattening order, keeping the first occurrence without merging, and
    only the top 3 are returned: for every present identifier the
    aggregated list holds at most one entry with it, and such an entry is
    the first result with that identifier among the flattened results of
    the successful sub-queries. *)
Theorem aggregateQueryResults_dedup_first (subResults : list settled)
  (originalQuery language : jstr) (id : artnum) :
  id <> ANone ->
  length (filter (fun r => artnum_eqb (article_number r) id)
                 (results (aggregateQueryResults subResults originalQuery language))) <= 1 /\
  (forall r, In r (results (aggregateQueryResults subResults originalQuery language)) ->
   article_number r = id ->
   find (fun r' => artnum_eqb (article_number r') id) (flattened subResults) = Some r).
Proof.
  intros _; rewrite aggregateQueryResults_results; split.
  - eapply Nat.le_trans; [apply filter_firstn_length|].
    rewrite <- (Permutation_filter_length _ _ _ (sort_by_score_perm _)).
    pose proof (dedup_seen_count id [] (flattened subResults)) as H; simpl in H; exact H.
  - intros r Hr Hid; subst id.
    apply in_firstn in Hr.
    apply (Permutation_in _ (Permutation_sym (sort_by_score_perm _))) in Hr.
    exact (dedup_seen_first _ _ _ Hr).
Qed.

(** ** Further properties *)

Lemma known_language_truthy (language : jsval) :
  known_language language = true -> truthy language = true.
Proof.
  destruct language as [| | | |s| |]; try discriminate; simpl.
  intros H; apply orb_true_iff in H as [H|H]; apply jstr_eqb_eq in H; subst; reflexivity.
Qed.

(** For a string query [validateRequest] does not throw; the request is valid exactly when the trimmed query has 1 to 1000 code units and the language is ['ar'] or ['en'], and at most two errors are reported. *)
Theorem validateRequest_string (q : jstr) (language : jsval) :
  exists v, validateRequest (JStr q) language = Ok v /\
    (isValid v = true <-> 0 < length (trim q) <= 1000 /\ known_language language = true) /\
    length (errors v) <= 2.
Proof.
  assert (Hl : (negb (truthy language) || negb (known_language language))
               = negb (known_language language)).
  { destruct (known_language language) eqn:K; [|apply orb_true_r].
    rewrite (known_language_truthy _ K); reflexivity. }
  unfold validateRequest; rewrite Hl.
  destruct q as [|c q'].
  - eexists; split; [reflexivity|]; cbn.
    destruct (known_language language); cbn; split; try split; try lia;
      intros H; try discriminate; destruct H; cbn in *; lia.
  - cbn [truthy negb].
    remember (length (trim (c :: q'))) as n eqn:Hn.
    eexists; split; [reflexivity|]; cbn [isValid errors].
    destruct (Nat.eqb n 0) eqn:E0; destruct (Nat.ltb 1000 n) eqn:E1;
      destruct (known_language language) eqn:K;
      rewrite ?Nat.eqb_eq, ?Nat.eqb_neq, ?Nat.ltb_lt, ?Nat.ltb_ge in *;
      cbn; split; try split; try lia; intros H; try discriminate;
      try (destruct H; lia); try (destruct H; discriminate); reflexivity.
Qed.


Lemma In_DEEPSEEK_API_KEYS (env : list (option jstr)) (k : jstr) :
  In k (DEEPSEEK_API_KEYS env) -> In (Some k) env /\ k <> [].
Proof.
  unfold DEEPSEEK_API_KEYS; intros H; apply in_flat_map in H as [o [Ho Hk]].
  destruct o as [[|c k']|]; simpl in Hk; try contradiction.
  destruct Hk as [Hk | []]; subst k; split; [exact Ho | discriminate].
Qed.

Lemma key_index_lt (language : jstr) (r n : nat) : 0 < n -> key_index language r n < n.
Proof. intros Hn; unfold key_index; destruct (is_ar language); apply Nat.mod_upper_bound; lia. Qed.

(** Every key [getNextApiKey] hands out is one of the configured, non-empty environment values. *)
Theorem getNextApiKey_configured (env : list (option jstr)) (language : jstr) (r : nat) (k : jstr) :
  getNextApiKey (DEEPSEEK_API_KEYS env) language r = Ok k -> In (Some k) env /\ k <> [].
Proof.
  unfold getNextApiKey; destruct (DEEPSEEK_API_KEYS env) as [|k0 ks] eqn:E; [discriminate|].
  intros H; injection H as <-; apply In_DEEPSEEK_API_KEYS; rewrite E.
  apply (nth_In (k0 :: ks)), key_index_lt; simpl; lia.
Qed.

Lemma mod_window_inj (a i j n : nat) :
  i < n -> j < n -> (a + i) mod n = (a + j) mod n -> i = j.
Proof.
  intros Hi Hj H.
  assert (Hn : n <> 0) by lia.
  pose proof (Nat.div_mod (a + i) n Hn) as Di.
  pose proof (Nat.div_mod (a + j) n Hn) as Dj.
  rewrite H in Di.
  set (qi := (a + i) / n) in *; set (qj := (a + j) / n) in *.
  destruct (Nat.lt_trichotomy qi qj) as [Hq | [Hq | Hq]].
  - assert (n * qi + n <= n * qj) by nia; lia.
  - rewrite Hq in Di; lia.
  - assert (n * qj + n <= n * qi) by nia; lia.
Qed.

Lemma key_index_window_inj (language : jstr) (r i j n : nat) :
  i < n -> j < n ->
  key_index language (r + i) n = key_index language (r + j) n -> i = j.
Proof.
  unfold key_index; destruct (is_ar language); intros Hi Hj H.
  - apply (mod_window_inj (S r) i j n Hi Hj).
    replace (S r + i) with (r + i + 1) by lia; replace (S r + j) with (r + j + 1) by lia.
    exact H.
  - exact (mod_window_inj r i j n Hi Hj H).
Qed.

Lemma key_index_seq_NoDup (language : jstr) (r m n : nat) :
  m <= n -> NoDup (map (fun x => key_index language x n) (seq r m)).
Proof.
  intros Hm; apply NoDup_map_NoDup_ForallPairs; [|apply seq_NoDup].
  intros x y Hx Hy; apply in_seq in Hx, Hy.
  replace x with (r + (x - r)) by lia; replace y with (r + (y - r)) by lia.
  intros H; apply key_index_window_inj in H; lia.
Qed.

(** Up to the number of keys, consecutive retry counts select pairwise different keys. *)
Theorem key_index_retries_distinct (keys : list jstr) (language : jstr) (r m : nat) :
  m <= length keys ->
  NoDup (map (fun retryCount => key_index language retryCount (length keys)) (seq r m)).
Proof. apply key_index_seq_NoDup. Qed.

Lemma searchDeepSeekAPI_fuel_requests (fuel : nat) (keys : list jstr)
  (up : nat -> jstr -> jsval -> upstream_event) (payload : jsval) (language : jstr) (r : nat) :
  let reqs := fst (searchDeepSeekAPI_fuel fuel keys up payload language r) in
  map req_retry reqs = seq r (length reqs) /\
  Forall (fun q => req_payload q = payload /\
                   req_key_index q = key_index language (req_retry q) (length keys) /\
                   req_key q = nth (req_key_index q) keys []) reqs /\
  (length reqs <= 1 \/ r + length reqs <= length keys) /\
  Forall (retried_on keys up payload) (removelast reqs).
Proof.
  revert r; induction fuel as [|f IH]; intros r; cbn zeta.
  - destruct keys as [|k ks]; [simpl; repeat constructor; auto|].
    cbn [searchDeepSeekAPI_fuel getNextApiKey].
    destruct (up r _ payload) as [| |st b] eqn:Hup;
      [simpl; repeat constructor; auto .. |].
    destruct (parse_body b) as [v|] eqn:Hb; [|simpl; repeat constructor; auto].
    destruct (_ && _); [simpl; repeat constructor; auto|].
    destruct (_ && _); simpl; repeat constructor; auto.
  - destruct keys as [|k ks]; [simpl; repeat constructor; auto|].
    cbn [searchDeepSeekAPI_fuel getNextApiKey].
    destruct (up r _ payload) as [| |st b] eqn:Hup;
      [simpl; repeat constructor; auto .. |].
    destruct (parse_body b) as [v|] eqn:Hb; [|simpl; repeat constructor; auto].
    destruct (_ && _); [simpl; repeat constructor; auto|].
    destruct (Nat.ltb r (length (k :: ks) - 1) && (Nat.eqb st 429 || Nat.leb 500 st)) eqn:Hr;
      [|simpl; repeat constructor; auto].
    apply andb_true_iff in Hr as [Hr Hst]; apply Nat.ltb_lt in Hr.
    pose proof (IH (S r)) as IHr; cbn zeta in IHr.
    destruct (searchDeepSeekAPI_fuel f (k :: ks) up payload language (S r)) as [reqs out] eqn:Hrec.
    simpl fst in *; destruct IHr as [Hseq [Hf [Hlen Hretry]]].
    split; [|split; [|split]].
    + simpl; rewrite Hseq; reflexivity.
    + constructor; [simpl; auto | exact Hf].
    + right; simpl length in *.
      destruct reqs as [|q reqs]; [simpl; lia|].
      destruct Hlen as [Hl | Hl]; simpl length in Hl |- *; [|lia].
      destruct reqs; simpl in Hl |- *; lia.
    + destruct reqs as [|q reqs].
      * simpl; constructor.
      * change (removelast (mkRequest r (key_index language r (length (k :: ks)))
                              (nth (key_index language r (length (k :: ks))) (k :: ks) [])
                              payload :: q :: reqs))
          with (mkRequest r (key_index language r (length (k :: ks)))
                  (nth (key_index language r (length (k :: ks))) (k :: ks) [])
                  payload :: removelast (q :: reqs)).
        constructor; [|exact Hretry].
        exists st, b, v; repeat split; auto.
        apply orb_true_iff in Hst as [Hst|Hst];
          [left; apply Nat.eqb_eq; exact Hst | right; apply Nat.leb_le; exact Hst].
Qed.

(** The requests of [searchDeepSeekAPI] carry consecutive retry counts from the initial one and pairwise different key indices; each uses the key at its index and the same payload. *)
Theorem searchDeepSeekAPI_request_sequence (keys : list jstr)
  (up : nat -> jstr -> jsval -> upstream_event) (payload : jsval) (language : jstr) (r : nat) :
  let reqs := fst (searchDeepSeekAPI keys up payload language r) in
  map req_retry reqs = seq r (length reqs) /\
  NoDup (map req_key_index reqs) /\
  Forall (fun q => req_payload q = payload /\ req_key q = nth (req_key_index q) keys []) reqs.
Proof.
  unfold searchDeepSeekAPI; cbn zeta.
  destruct (searchDeepSeekAPI_fuel_requests (length keys) keys up payload language r)
    as [Hseq [Hf [Hlen _]]]; cbn zeta in *.
  set (reqs := fst (searchDeepSeekAPI_fuel (length keys) keys up payload language r)) in *.
  split; [exact Hseq | split].
  - assert (E : map req_key_index reqs
                = map (fun x => key_index language x (length keys)) (map req_retry reqs)).
    { rewrite map_map; apply map_ext_in; intros q Hq.
      rewrite Forall_forall in Hf; apply Hf; exact Hq. }
    rewrite E, Hseq.
    destruct Hlen as [Hl | Hl].
    + destruct reqs as [|q [|q' t]]; simpl in Hl |- *; [constructor | | lia].
      repeat constructor; intros [].
    + apply key_index_seq_NoDup; lia.
  - eapply Forall_impl; [|exact Hf]; intros q [Hp [_ Hk]]; auto.
Qed.

(** Every request of [searchDeepSeekAPI] but the last one was answered with a parsable body and a status of 429 or at least 500. *)
Theorem searchDeepSeekAPI_retries_only_throttled (keys : list jstr)
  (up : nat -> jstr -> jsval -> upstream_event) (payload : jsval) (language : jstr) (r : nat) :
  Forall (retried_on keys up payload) (removelast (fst (searchDeepSeekAPI keys up payload language r))).
Proof.
  apply (searchDeepSeekAPI_fuel_requests (length keys) keys up payload language r).
Qed.

Lemma adjacent_app (Q : N -> N -> Prop) (l a b : jstr) (c d : N) :
  adjacent Q l -> l = a ++ c :: d :: b -> Q c d.
Proof.
  revert l; induction a as [|x a IH]; intros l Hl ->; simpl in Hl.
  - exact (proj1 Hl).
  - destruct a as [|y a]; simpl in Hl |- *.
    + exact (proj1 (proj2 Hl)).
    + apply (IH (y :: a ++ c :: d :: b)); [exact (proj2 Hl) | reflexivity].
Qed.

Lemma ws_32 : is_ws 32 = true.
Proof. reflexivity. Qed.

Lemma norm_aux_spaced (t : jstr) (st : tstate) (p : N) :
  st <> TStart -> is_ws p = false ->
  (st = TLatin -> is_latin p = true) -> (st = TOther -> is_latin p = false) ->
  adjacent spaced (p :: norm_aux st t).
Proof.
  revert st p; induction t as [|c t IH]; intros st p Hst Hp HL HO; [exact I|].
  assert (Hp32 : p <> 32%N) by (intros ->; discriminate).
  simpl; destruct (is_ws c) eqn:W.
  - destruct st; [congruence | ..]; apply IH; auto; discriminate.
  - assert (Hc32 : c <> 32%N) by (intros ->; discriminate).
    assert (IHc : adjacent spaced (c :: norm_aux (class_of c) t)).
    { apply IH; auto; unfold class_of; destruct (is_latin c) eqn:L;
        try discriminate; auto. }
    destruct (sep_before st c) eqn:S.
    + simpl; split; [|split; [|exact IHc]]; split; intros H; auto; congruence.
    + simpl; split; [|exact IHc]; split; intros H; [congruence|].
      exfalso; apply H.
      destruct st; simpl in S; try congruence.
      * rewrite HL by reflexivity; destruct (is_latin c); simpl in S; congruence.
      * rewrite HO by reflexivity; destruct (is_latin c); simpl in S; congruence.
Qed.

Lemma norm_aux_start_spaced (t : jstr) : adjacent spaced (norm_aux TStart t).
Proof.
  induction t as [|c t IH]; [exact I|].
  simpl; destruct (is_ws c) eqn:W; [exact IH|].
  apply norm_aux_spaced; auto; unfold class_of; destruct (is_latin c) eqn:L;
    try discriminate; auto.
Qed.

Lemma norm_aux_ws (t : jstr) (st : tstate) :
  Forall (fun c => is_ws c = true -> c = 32%N) (norm_aux st t).
Proof.
  revert st; induction t as [|c t IH]; intros st; simpl; [constructor|].
  destruct (is_ws c) eqn:W; [apply IH|].
  destruct (sep_before st c); repeat constructor; auto; intros H; congruence.
Qed.

(** The output of [preprocessArabicText] has the space as its only whitespace, none at either end, never two spaces in a row, and a space between a Latin letter and an adjacent code unit that is not one. *)
Theorem preprocessArabicText_spacing (s : jstr) :
  let out := preprocessArabicText s in
  Forall (fun c => is_ws c = true -> c = 32%N) out /\
  (out = [] \/ exists c y z d, out = c :: y /\ out = z ++ [d] /\
                               is_ws c = false /\ is_ws d = false) /\
  (forall a b c d, out = a ++ c :: d :: b ->
     (c = 32%N -> d <> 32%N) /\ (is_latin c <> is_latin d -> c = 32%N \/ d = 32%N)).
Proof.
  cbn zeta; rewrite preprocessArabicText_norm.
  split; [apply norm_aux_ws | split].
  - destruct (norm_aux_start_head s) as [E | [c [y [E Hc]]]]; [left; exact E|].
    destruct (norm_aux_last TStart s) as [E' | [z [d [E' Hd]]]]; [rewrite E in E'; discriminate|].
    right; exists c, y, z, d; auto.
  - intros a b c d E; exact (adjacent_app spaced _ a b c d (norm_aux_start_spaced s) E).
Qed.

Lemma norm_aux_filter (t : jstr) (st : tstate) :
  filter (fun c => negb (is_ws c)) (norm_aux st t) = filter (fun c => negb (is_ws c)) t.
Proof.
  revert st; induction t as [|c t IH]; intros st; [reflexivity|].
  simpl; destruct (is_ws c) eqn:W; simpl; [apply IH|].
  destruct (sep_before st c); simpl; rewrite ?ws_32, ?W; simpl; rewrite IH; reflexivity.
Qed.

(** [preprocessArabicText] only changes whitespace: without their whitespace, its input and output are the same text. *)
Theorem preprocessArabicText_keeps_text (s : jstr) :
  filter (fun c => negb (is_ws c)) (preprocessArabicText s) = filter (fun c => negb (is_ws c)) s.
Proof. rewrite preprocessArabicText_norm; apply norm_aux_filter. Qed.

(** *** optimizeDocumentsForArabic: re-optimising and the Vercel variant *)

Lemma map_option_fixed {A} (f : A -> option A) (l : list A) :
  Forall (fun x => f x = Some x) l -> map_option f l = Some l.
Proof. induction 1 as [|x l Hx _ IH]; simpl; [reflexivity|]; rewrite Hx, IH; reflexivity. Qed.

Lemma map_option_ext {A B} (f g : A -> option B) (l : list A) :
  Forall (fun x => f x = g x) l -> map_option f l = map_option g l.
Proof. induction 1 as [|x l Hx _ IH]; simpl; [reflexivity|]; rewrite Hx, IH; reflexivity. Qed.

Lemma js_or_js_or (v d : jsval) : js_or (js_or v d) d = js_or v d.
Proof. unfold js_or; destruct (truthy v) eqn:T; [rewrite T|destruct (truthy d)]; reflexivity. Qed.

Lemma preprocess_val_str (x : jstr) : preprocess_val (JStr x) = Some (preprocessArabicText x).
Proof. unfold preprocess_val, js_or; destruct x; reflexivity. Qed.

Lemma preprocess_val_fixed (tx : jsval) (x : jstr) :
  preprocess_val tx = Some x -> preprocessArabicText x = x.
Proof.
  unfold preprocess_val; destruct (js_or tx (JStr [])); try discriminate.
  intros H; injection H as <-.
  rewrite !preprocessArabicText_norm; apply norm_aux_fix; constructor.
Qed.

Lemma optimize_article_fixed (language : jstr) (e f : jstr * jsval) :
  optimize_article language e = Some f -> optimize_article language f = Some f.
Proof.
  destruct e as [k a]; unfold optimize_article.
  destruct (is_ar language); [|intros H; injection H as <-; reflexivity].
  destruct (get_prop a k_title) as [t|], (get_prop a k_text) as [tx|],
    (get_prop a k_tables) as [tb|]; try discriminate.
  destruct (preprocess_val tx) as [x|] eqn:Px; [|discriminate].
  intros H; injection H as <-.
  change (get_prop (JObj [(k_title, t); (k_text, JStr x); (k_tables, js_or tb JUndef)]) k_title)
    with (Some t).
  change (get_prop (JObj [(k_title, t); (k_text, JStr x); (k_tables, js_or tb JUndef)]) k_text)
    with (Some (JStr x)).
  change (get_prop (JObj [(k_title, t); (k_text, JStr x); (k_tables, js_or tb JUndef)]) k_tables)
    with (Some (js_or tb JUndef)).
  cbv beta iota; rewrite preprocess_val_str, (preprocess_val_fixed tx x Px), js_or_js_or; reflexivity.
Qed.

(** Optimising documents that [optimizeDocumentsForArabic] already optimised gives them back unchanged. *)
Theorem optimizeDocumentsForArabic_idempotent (documents : list (jstr * jsval)) (language : jstr)
  (optimized : list (jstr * jsval)) :
  optimizeDocumentsForArabic documents language = Some optimized ->
  optimizeDocumentsForArabic optimized language = Some optimized.
Proof.
  unfold optimizeDocumentsForArabic at 1.
  destruct documents as [|[mainKey articles] rest]; [intros H; injection H as <-; reflexivity|].
  destruct (negb (truthy articles)); [intros H; injection H as <-; reflexivity|].
  destruct (map_option (optimize_article language) (entries articles)) as [fs|] eqn:E;
    [|discriminate].
  intros H; injection H as <-; simpl.
  rewrite map_option_fixed; [reflexivity|].
  apply map_option_Forall2 in E.
  induction E as [|e f l l' Hef _ IH]; constructor; [|exact IH].
  exact (optimize_article_fixed language e f Hef).
Qed.

Lemma get_prop_some (a : jsval) (k : jstr) :
  get_prop a k = match a with JUndef | JNull => None | _ => Some (prop a k) end.
Proof. destruct a; reflexivity. Qed.

Lemma js_or_falsy (v d : jsval) : truthy v = false -> js_or v d = d.
Proof. unfold js_or; intros ->; reflexivity. Qed.

(** When no article has the Arabic-named fields, the api/search.js [optimizeDocumentsForArabic] computes the same as the one of searchFunction.js. *)
Theorem optimizeDocumentsForArabic_vercel_agrees (mainKey : jstr) (articles : jsval)
  (rest : list (jstr * jsval)) (language : jstr) :
  Forall (fun e => truthy (prop (snd e) k_title_ar) = false /\
                   truthy (prop (snd e) k_text_ar) = false /\
                   truthy (prop (snd e) k_tables_ar) = false) (entries articles) ->
  optimizeDocumentsForArabic_vercel ((mainKey, articles) :: rest) language
  = optimizeDocumentsForArabic ((mainKey, articles) :: rest) language.
Proof.
  intros Hf; unfold optimizeDocumentsForArabic_vercel, optimizeDocumentsForArabic.
  rewrite (map_option_ext (optimize_article_vercel language) (optimize_article language));
    [reflexivity|].
  eapply Forall_impl; [|exact Hf]; intros [k a] [H1 [H2 H3]]; simpl in H1, H2, H3.
  unfold optimize_article_vercel, optimize_article.
  destruct (is_ar language); [|reflexivity].
  rewrite !(get_prop_some a).
  destruct a; try reflexivity;
    rewrite (js_or_falsy _ _ H1), (js_or_falsy _ _ H2), (js_or_falsy _ _ H3); reflexivity.
Qed.

(** *** String.prototype.split and splitQueryIntelligently *)

Lemma split_aux_skip (sep : jstr) (x r acc : jstr) :
  split_aux sep (length x) acc (x ++ r) = split_aux sep 0 acc r.
Proof.
  induction x as [|c x IH]; [reflexivity|].
  simpl; destruct x as [|d x']; [destruct r; reflexivity|].
  exact IH.
Qed.

Lemma split_aux_nonempty (sep : jstr) (k : nat) (acc s : jstr) : split_aux sep k acc s <> [].
Proof.
  revert k acc; induction s as [|c s IH]; intros k acc; simpl; [discriminate|].
  destruct k; [destruct (is_prefix sep (c :: s)); [discriminate | apply IH] | apply IH].
Qed.

Lemma join_with_cons (sep a : jstr) (l : list jstr) :
  l <> [] -> join_with sep (a :: l) = a ++ sep ++ join_with sep l.
Proof. destruct l; [congruence | reflexivity]. Qed.

Lemma is_prefix_app (p s : jstr) : is_prefix p s = true -> exists r, s = p ++ r.
Proof.
  revert s; induction p as [|x p IH]; intros s H; [exists s; reflexivity|].
  destruct s as [|y s]; [discriminate|]; simpl in H.
  apply andb_true_iff in H as [Hxy H]; apply N.eqb_eq in Hxy; subst y.
  destruct (IH s H) as [r ->]; exists r; reflexivity.
Qed.

Lemma split_aux_join (sep : jstr) (n : nat) (s acc : jstr) :
  sep <> [] -> length s <= n -> join_with sep (split_aux sep 0 acc s) = rev acc ++ s.
Proof.
  intros Hsep; revert s acc; induction n as [|n IH]; intros s acc Hn.
  - destruct s; [rewrite app_nil_r; reflexivity | simpl in Hn; lia].
  - destruct s as [|c t]; [rewrite app_nil_r; reflexivity|].
    simpl split_aux; destruct (is_prefix sep (c :: t)) eqn:P.
    + destruct (is_prefix_app _ _ P) as [r Er].
      destruct sep as [|c' sep']; [congruence|].
      injection Er as <- Et; subst t.
      rewrite join_with_cons by apply split_aux_nonempty.
      simpl pred; rewrite split_aux_skip, IH by (simpl in Hn; rewrite length_app in Hn; lia).
      reflexivity.
    + rewrite IH by (simpl in Hn; lia); simpl; rewrite <- app_assoc; reflexivity.
Qed.

Lemma split_join (s sep : jstr) : sep <> [] -> join_with sep (split s sep) = s.
Proof. intros H; unfold split; rewrite (split_aux_join sep (length s)); auto. Qed.

(** For a language other than ['ar'] the sub-queries are the pieces of the query around [' and '], trimmed when it occurs; joined with [' and '] the pieces give back the query. *)
Theorem splitQueryIntelligently_english_pieces (query language : jstr) :
  is_ar language = false ->
  exists pieces, join_with (s2j " and ") pieces = query /\
    splitQueryIntelligently query language
    = if includes query (s2j " and ") then map trim pieces else pieces.
Proof.
  intros Hl; unfold splitQueryIntelligently; rewrite Hl; cbn [negb].
  destruct (includes query (s2j " and ")).
  - exists (split query (s2j " and ")); split; [apply split_join; discriminate | reflexivity].
  - exists [query]; split; reflexivity.
Qed.

Lemma infix_trans (s x y : jstr) : infix_of s x -> infix_of x y -> infix_of s y.
Proof.
  intros [a [b ->]] [c [d ->]]; exists (a ++ c), (d ++ b).
  rewrite <- !app_assoc; reflexivity.
Qed.

Lemma infix_refl (s : jstr) : infix_of s s.
Proof. exists [], []; rewrite app_nil_r; reflexivity. Qed.

Lemma trim_start_suffix (s : jstr) : exists a, s = a ++ trim_start s.
Proof.
  induction s as [|c s [a Ha]]; [exists []; reflexivity|].
  simpl; destruct (is_ws c); [exists (c :: a); simpl; congruence | exists []; reflexivity].
Qed.

Lemma trim_infix (s : jstr) : infix_of s (trim s).
Proof.
  destruct (trim_start_suffix s) as [a Ha].
  destruct (trim_start_suffix (rev (trim_start s))) as [b Hb].
  exists a, (rev b); unfold trim.
  rewrite Ha at 1; f_equal.
  apply (f_equal (@rev N)) in Hb; rewrite rev_involutive, rev_app_distr in Hb; exact Hb.
Qed.

Lemma join_infix (sep x : jstr) (l : list jstr) : In x l -> infix_of (join_with sep l) x.
Proof.
  induction l as [|y l IH]; intros H; [destruct H|].
  destruct H as [<- | H].
  - destruct l as [|z l]; [apply infix_refl|].
    exists [], (sep ++ join_with sep (z :: l)); reflexivity.
  - destruct l as [|z l]; [destruct H|].
    rewrite join_with_cons by discriminate.
    destruct (IH H) as [a [b Hab]]; rewrite Hab.
    exists (y ++ sep ++ a), b; rewrite <- !app_assoc; reflexivity.
Qed.

Lemma split_piece_infix (s sep x : jstr) : sep <> [] -> In x (split s sep) -> infix_of s x.
Proof.
  intros Hsep Hx; pose proof (join_infix sep x _ Hx) as H.
  rewrite split_join in H by exact Hsep; exact H.
Qed.

Lemma split_round_infix (query splitter : jstr) (qs : list jstr) :
  splitter <> [] -> Forall (infix_of query) qs -> Forall (infix_of query) (split_round qs splitter).
Proof.
  intros Hsp Hqs; unfold split_round; apply Forall_forall; intros x Hx.
  apply in_flat_map in Hx as [q [Hq Hx]].
  rewrite Forall_forall in Hqs; specialize (Hqs q Hq).
  destruct (includes q splitter).
  - apply filter_In in Hx as [Hx _]; apply in_map_iff in Hx as [p [<- Hp]].
    apply (infix_trans _ q); [exact Hqs|].
    apply (infix_trans _ p); [exact (split_piece_infix q splitter p Hsp Hp) | apply trim_infix].
  - destruct Hx as [<- | []]; exact Hqs.
Qed.

Lemma fold_split_infix (query : jstr) (splitters : list jstr) (qs : list jstr) :
  Forall (fun s => s <> []) splitters -> Forall (infix_of query) qs ->
  Forall (infix_of query) (fold_left split_round splitters qs).
Proof.
  intros Hs; revert qs; induction Hs as [|sp sps Hsp _ IH]; intros qs Hqs; [exact Hqs|].
  cbn [fold_left]; apply IH, split_round_infix; assumption.
Qed.

(** Every sub-query of [splitQueryIntelligently] is a substring of the query. *)
Theorem splitQueryIntelligently_infix (query language : jstr) :
  Forall (fun sub => exists before after, query = before ++ sub ++ after)
         (splitQueryIntelligently query language).
Proof.
  change (Forall (infix_of query) (splitQueryIntelligently query language)).
  unfold splitQueryIntelligently; destruct (negb (is_ar language)).
  - destruct (includes query (s2j " and ")); [|repeat constructor; apply infix_refl].
    apply Forall_forall; intros x Hx; apply in_map_iff in Hx as [p [<- Hp]].
    apply (infix_trans _ p); [apply (split_piece_infix _ (s2j " and ")); auto; discriminate|].
    apply trim_infix.
  - assert (H0 : Forall (infix_of query) (fold_left split_round arabicSplitters [query])).
    { apply fold_split_infix; [repeat constructor; discriminate | repeat constructor; apply infix_refl]. }
    set (l0 := fold_left split_round arabicSplitters [query]) in *.
    assert (H1 : Forall (infix_of query) (if Nat.ltb 3 (length l0) then firstn 3 l0 else l0)).
    { destruct (Nat.ltb 3 (length l0)); [|exact H0].
      apply Forall_forall; intros x Hx; apply in_firstn in Hx.
      rewrite Forall_forall in H0; auto. }
    set (l1 := if Nat.ltb 3 (length l0) then firstn 3 l0 else l0) in *.
    destruct (_ || _); [repeat constructor; apply infix_refl|].
    apply Forall_forall; intros x Hx; apply filter_In in Hx as [Hx _].
    rewrite Forall_forall in H1; auto.
Qed.

(** *** partitionDocuments: the number of partitions *)

Lemma concat_length_uniform {A} (s : nat) (l : list (list A)) :
  Forall (fun p => length p = s) l -> length (concat l) = length l * s.
Proof. induction 1 as [|p l Hp _ IH]; simpl; [reflexivity|]; rewrite length_app, Hp, IH; lia. Qed.

Lemma partition_count_arith (n s p L : nat) :
  0 < n -> s = ceil_div3 n -> n = (p - 1) * s + L -> 0 < L <= s -> 0 < p ->
  p = if Nat.eqb n 4 then 2 else Nat.min n 3.
Proof.
  unfold ceil_div3; intros Hn Hs HnL HL Hp.
  assert (H3 : 3 * s <= n + 2 < 3 * s + 3) by (subst s; pose proof (Nat.div_mod (n + 2) 3); pose proof (Nat.mod_upper_bound (n + 2) 3); lia).
  destruct (Nat.eqb n 4) eqn:E4; [apply Nat.eqb_eq in E4 | apply Nat.eqb_neq in E4].
  - rewrite E4 in *; assert (s = 2) by lia; subst s.
    destruct p as [|[|[|p]]]; simpl in HnL; lia.
  - destruct (Nat.le_gt_cases n 3) as [Hle | Hgt].
    + assert (s = 1) by lia; subst s; nia.
    + assert (2 <= s) by lia.
      destruct p as [|[|[|[|p]]]]; simpl in HnL; lia.
Qed.

(** For a truthy first section of [n] articles, [partitionDocuments] makes [min n 3] partitions, except 2 partitions for 4 articles. *)
Theorem partitionDocuments_count (mainKey : jstr) (articles : jsval) (rest : list (jstr * jsval)) :
  truthy articles = true ->
  length (partitionDocuments ((mainKey, articles) :: rest))
  = let n := length (entries articles) in if Nat.eqb n 4 then 2 else Nat.min n 3.
Proof.
  intros Ht; unfold partitionDocuments; rewrite Ht; cbn [negb]; rewrite length_map; cbn zeta.
  set (ents := entries articles).
  destruct ents as [|e es] eqn:Ee; [reflexivity|].
  set (n := length (e :: es)).
  assert (Hs : 0 < ceil_div3 n) by (unfold ceil_div3, n; apply Nat.div_str_pos; simpl; lia).
  destruct (partition_loop_props n (ceil_div3 n) (e :: es) 0 Hs ltac:(unfold n; lia))
    as [Hc [Hb Hl]].
  set (P := partition_loop n (ceil_div3 n) (e :: es) 0) in *.
  simpl skipn in Hc.
  destruct P as [|p0 ps] eqn:EP; [discriminate|].
  rewrite <- EP in *.
  assert (Hlast := app_removelast_last [] (l := P) ltac:(rewrite EP; discriminate)).
  set (lst := last P []) in *.
  assert (HlastIn : In lst P)
    by (rewrite Hlast; apply in_or_app; right; left; reflexivity).
  rewrite Forall_forall in Hb; destruct (Hb lst HlastIn) as [HL1 HL2].
  assert (HlenP : length P = S (length (removelast P)))
    by (rewrite Hlast at 1; rewrite length_app; simpl; lia).
  assert (Hn : n = length (removelast P) * ceil_div3 n + length lst).
  { transitivity (length (concat P)); [rewrite Hc; reflexivity|].
    rewrite Hlast at 1; rewrite concat_app, length_app, (concat_length_uniform (ceil_div3 n)) by exact Hl.
    simpl; rewrite app_nil_r; reflexivity. }
  apply (partition_count_arith n (ceil_div3 n) (length P) (length lst)).
  - unfold n; simpl; lia.
  - reflexivity.
  - rewrite HlenP; simpl; rewrite Nat.sub_0_r; exact Hn.
  - lia.
  - lia.
Qed.

(** *** The frontend cache and escapeRegex *)

Lemma cache_set_old {V} (k : jstr) (v : V) (m : cache V) :
  In k (map fst m) -> map fst (cache_set k v m) = map fst m.
Proof.
  induction m as [|[k' v'] m IH]; simpl; [intros []|]; intros H.
  destruct (jstr_eqb k k') eqn:E; [reflexivity|].
  destruct H as [Hk | H]; [subst k'; rewrite (proj2 (jstr_eqb_eq k k) eq_refl) in E; discriminate|].
  simpl; rewrite IH by exact H; reflexivity.
Qed.

Lemma cache_set_new {V} (k : jstr) (v : V) (m : cache V) :
  ~ In k (map fst m) -> cache_set k v m = m ++ [(k, v)].
Proof.
  induction m as [|[k' v'] m IH]; simpl; [reflexivity|]; intros H.
  destruct (jstr_eqb k k') eqn:E; [apply jstr_eqb_eq in E; subst; tauto|].
  rewrite IH by tauto; reflexivity.
Qed.

Lemma cache_get_set {V} (k : jstr) (v : V) (m : cache V) : cache_get k (cache_set k v m) = Some v.
Proof.
  induction m as [|[k' v'] m IH]; simpl; [rewrite (proj2 (jstr_eqb_eq k k) eq_refl); reflexivity|].
  destruct (jstr_eqb k k') eqn:E; simpl; rewrite E; [reflexivity | exact IH].
Qed.

Lemma cache_get_last {V} (k : jstr) (v : V) (m : cache V) :
  ~ In k (map fst m) -> cache_get k (m ++ [(k, v)]) = Some v.
Proof.
  intros H; rewrite <- cache_set_new by exact H; apply cache_get_set.
Qed.

(** Storing into a cache with distinct keys and at most 50 entries keeps the keys distinct and the size at most 50, and the stored value is then found under its key. *)
Theorem cache_store_bounded {V} (k : jstr) (v : V) (m : cache V) :
  NoDup (map fst m) -> length m <= 50 ->
  let m' := cache_store k v m in
  NoDup (map fst m') /\ length m' <= 50 /\ cache_get k m' = Some v.
Proof.
  intros Hnd Hlen; cbn zeta; unfold cache_store.
  destruct (in_dec (list_eq_dec N.eq_dec) k (map fst m)) as [Hin | Hin].
  - assert (Hl : length (cache_set k v m) = length m)
      by (rewrite <- (length_map fst (cache_set k v m)), cache_set_old, length_map by exact Hin;
          reflexivity).
    rewrite Hl; replace (Nat.ltb 50 (length m)) with false by (symmetry; apply Nat.ltb_ge; lia).
    rewrite cache_set_old by exact Hin; split; [exact Hnd | split; [lia | apply cache_get_set]].
  - rewrite cache_set_new by exact Hin.
    assert (Hnd' : NoDup (map fst (m ++ [(k, v)]))).
    { rewrite map_app; apply NoDup_app; [exact Hnd | repeat constructor; intros [] |].
      intros x Hx [<- | []]; contradiction. }
    rewrite length_app; simpl length.
    destruct (Nat.ltb 50 (length m + 1)) eqn:E.
    + apply Nat.ltb_lt in E.
      destruct m as [|[k0 v0] m]; [simpl in E; lia|].
      simpl tl; simpl in Hnd', Hlen, Hin.
      split; [inversion Hnd'; assumption|split].
      * rewrite length_app; simpl; lia.
      * apply cache_get_last; tauto.
    + apply Nat.ltb_ge in E.
      split; [exact Hnd' | split; [rewrite length_app; simpl; lia | apply cache_get_last; exact Hin]].
Qed.

Lemma escapeRegex_no_backslash_n (n : nat) (text : jstr) :
  length text <= n -> ~ In 92%N text -> escapeRegex text = text.
Proof.
  revert text; induction n as [|n IH]; intros text Hn Hb.
  - destruct text; [reflexivity | simpl in Hn; lia].
  - destruct text as [|c t]; [reflexivity|].
    assert (Ht : escapeRegex t = t) by (apply IH; [simpl in Hn; lia | intros H; apply Hb; right; exact H]).
    simpl; destruct t as [|b [|e t']]; try (rewrite Ht; reflexivity).
    replace (N.eqb b 92) with false
      by (symmetry; apply N.eqb_neq; intros ->; apply Hb; right; left; reflexivity).
    rewrite andb_false_r, andb_false_l; rewrite Ht; reflexivity.
Qed.

(** [escapeRegex] leaves a text without backslash unchanged. *)
Theorem escapeRegex_no_backslash (text : jstr) : ~ In 92%N text -> escapeRegex text = text.
Proof. apply (escapeRegex_no_backslash_n (length text)); lia. Qed.

Lemma map_index_from_items (language : jstr) (i : nat) (l : list jsval) (items : list result_item) :
  map_index_from (process_item language) i l = Some items ->
  length items = length l /\
  map item_id items = map (fun j => s2j "result_" ++ index_key j) (seq i (length l)).
Proof.
  revert i items; induction l as [|x t IH]; intros i items H; simpl in H.
  - injection H as <-; auto.
  - destruct (process_item language i x) as [y|] eqn:Ey; [|discriminate].
    destruct (map_index_from (process_item language) (S i) t) as [ys|] eqn:Eys; [|discriminate].
    injection H as <-. destruct (IH _ _ Eys) as [IH1 IH2].
    destruct x; try discriminate; injection Ey as <-; simpl; rewrite IH1, IH2; auto.
Qed.

(** A result of [processSearchResults] holds [min 3 total_results] entries with ids [result_0], [result_1], ...; it has results exactly when [total_results] is positive, and then carries [returned_results] and the platform. *)
Theorem processSearchResults_shape (platform : option jstr) (parse : jstr -> option jsval)
  (language : jstr) (apiResponse : jsval) (p : processed) :
  processSearchResults_with platform parse language apiResponse = Ok p ->
  length (ps_results p) = Nat.min 3 (ps_total_results p) /\
  map item_id (ps_results p) =
    map (fun i => s2j "result_" ++ index_key i) (seq 0 (length (ps_results p))) /\
  (hasResults p = true <-> 0 < ps_total_results p) /\
  ps_returned_results p = (if hasResults p then Some (length (ps_results p)) else None) /\
  ps_platform p = (if hasResults p then platform else None) /\
  ps_language p = language.
Proof.
  unfold processSearchResults_with; intro H.
  destruct (read_content apiResponse) as [c|]; [|discriminate].
  destruct (parse (to_js_string c)) as [pc|]; [|discriminate].
  destruct (get_prop pc k_results) as [r|]; [|discriminate].
  destruct (length_is_zero (js_or r (JArr []))) eqn:Ez.
  - injection H as <-; simpl; intuition lia.
  - destruct (js_or r (JArr [])) as [| | | | |l|] eqn:Er; try discriminate.
    destruct (map_index_from (process_item language) 0 (firstn 3 l)) as [items|] eqn:Ei;
      [|discriminate].
    injection H as <-; simpl in Ez |- *.
    destruct (map_index_from_items _ _ _ _ Ei) as [L1 L2].
    rewrite L1, length_firstn in *. rewrite L2.
    apply Nat.eqb_neq in Ez. intuition lia.
Qed.

Lemma sse_extends_refl (st : sse_state) : sse_extends st st.
Proof. split; [exists []; rewrite app_nil_r | right]; reflexivity. Qed.

Lemma sse_extends_trans (a b c : sse_state) :
  sse_extends a b -> sse_extends b c -> sse_extends a c.
Proof.
  intros [[e1 H1] R1] [[e2 H2] R2]; split.
  - exists (e1 ++ e2); rewrite H2, H1, app_assoc; reflexivity.
  - destruct R1 as [R1|R1]; [left; exact R1|].
    destruct R2 as [R2|R2]; [left | right]; congruence.
Qed.

Lemma settle_extends {A} (p q : promise A) : p = PPending \/ settle p q = p.
Proof. destruct p; simpl; auto. Qed.

Lemma sse_event_extends (parse : jstr -> option jsval) (st : sse_state) (e : jstr) :
  sse_extends st (sse_event parse st e).
Proof.
  destruct st as [last res]; unfold sse_event.
  destruct (is_prefix sse_data_prefix e); [|apply sse_extends_refl].
  destruct (jstr_eqb _ _); [apply sse_extends_refl|].
  destruct (_ && _); [|apply sse_extends_refl].
  destruct (parse _) as [parsed|]; [|apply sse_extends_refl].
  destruct (get_prop parsed k_choices) as [ch|]; [|apply sse_extends_refl].
  destruct (_ && _); [|apply sse_extends_refl].
  split; simpl.
  - destruct (_ && _); [eexists; reflexivity | exists []; rewrite app_nil_r; reflexivity].
  - destruct (prop _ _); try (right; reflexivity).
    destruct (jstr_eqb _ _); [apply settle_extends | right; reflexivity].
Qed.

Lemma fold_sse_event_extends (parse : jstr -> option jsval) (es : list jstr) (st : sse_state) :
  sse_extends st (fold_left (sse_event parse) es st).
Proof.
  revert st; induction es as [|e es IH]; intro st; simpl; [apply sse_extends_refl|].
  eapply sse_extends_trans; [apply sse_event_extends | apply IH].
Qed.

Lemma sse_step_extends (parse : jstr -> option jsval) (language : jstr) (st : sse_state)
  (ev : stream_event) : sse_extends st (sse_step parse language st ev).
Proof.
  destruct ev as [chunk| |]; simpl; [apply fold_sse_event_extends| |].
  - destruct st as [last res]; simpl.
    split; [exists []; rewrite app_nil_r; destruct last; reflexivity|].
    destruct last; apply settle_extends.
  - destruct st as [last res]; split; [exists []; rewrite app_nil_r; reflexivity|].
    apply settle_extends.
Qed.

(** While the events of the stream are processed the collected content only grows, and a settled promise never changes. *)
Theorem sse_run_monotone (parse : jstr -> option jsval) (language : jstr)
  (evs : list stream_event) (st : sse_state) :
  let st' := fold_left (sse_step parse language) evs st in
  (exists ext, lastEventData st' = lastEventData st ++ ext) /\
  (sse_result st = PPending \/ sse_result st' = sse_result st).
Proof.
  cbv zeta; change (sse_extends st (fold_left (sse_step parse language) evs st)).
  revert st; induction evs as [|ev evs IH]; intro st; simpl; [apply sse_extends_refl|].
  eapply sse_extends_trans; [apply sse_step_extends | apply IH].
Qed.

Lemma fold_sse_event_no_data (parse : jstr -> option jsval) (es : list jstr) (st : sse_state) :
  forallb (fun e => negb (is_prefix sse_data_prefix e)) es = true ->
  fold_left (sse_event parse) es st = st.
Proof.
  revert st; induction es as [|e es IH]; intros st H; cbn [fold_left forallb] in *; [reflexivity|].
  apply andb_true_iff in H as [H1 H2]. apply negb_true_iff in H1.
  replace (sse_event parse st e) with st by (unfold sse_event; rewrite H1; reflexivity).
  apply IH, H2.
Qed.

Lemma sse_step_quiet (parse : jstr -> option jsval) (language : jstr) (st : sse_state)
  (ev : stream_event) :
  sse_quiet language st ->
  match ev with
  | SChunk c => forallb (fun e => negb (is_prefix sse_data_prefix e)) (split c [10; 10]%N) = true
  | _ => True
  end ->
  sse_quiet language (sse_step parse language st ev).
Proof.
  destruct st as [last res]; intros [Hl Hr] Hev; simpl in Hl; subst last.
  destruct ev as [c| |]; simpl.
  - rewrite fold_sse_event_no_data by exact Hev; split; auto.
  - split; [reflexivity|]; simpl in Hr |- *.
    destruct Hr as [-> | [-> | ->]]; simpl; auto.
  - split; [reflexivity|]; simpl in Hr |- *.
    destruct Hr as [-> | [-> | ->]]; simpl; auto.
Qed.

Lemma sse_run_quiet_end (parse : jstr -> option jsval) (language : jstr)
  (evs : list stream_event) :
  Forall (fun ev => match ev with
                    | SChunk c => forallb (fun e => negb (is_prefix sse_data_prefix e))
                                          (split c [10; 10]%N) = true
                    | _ => True
                    end) evs ->
  sse_result (sse_run parse language (evs ++ [SEnd])) =
    PRejected (RejectObject (msg_no_response language) None) \/
  sse_result (sse_run parse language (evs ++ [SEnd])) =
    PRejected (RejectObject (msg_stream_error language) None).
Proof.
  intro H; unfold sse_run; rewrite fold_left_app.
  assert (Q : sse_quiet language (fold_left (sse_step parse language) evs (mkSSE [] PPending))).
  { assert (Q0 : sse_quiet language (mkSSE [] PPending)) by (split; simpl; auto).
    revert Q0; generalize (mkSSE [] PPending); induction H as [|ev evs Hev Hevs IH];
      intros st Q0; simpl; [exact Q0|].
    apply IH, sse_step_quiet; assumption. }
  destruct (fold_left _ evs _) as [last res]; destruct Q as [Hl Hr]; simpl in Hl, Hr; subst last.
  simpl; destruct Hr as [-> | [-> | ->]]; simpl; auto.
Qed.

(** A response stream without any [data: ] event ends in a rejection, with the message of an empty stream or of a connection error. *)
Theorem sse_run_without_data (parse : jstr -> option jsval) (language : jstr)
  (evs : list stream_event) :
  Forall (fun ev => match ev with
                    | SChunk c => forallb (fun e => negb (is_prefix sse_data_prefix e))
                                          (split c [10; 10]%N) = true
                    | _ => True
                    end) evs ->
  sse_result (sse_run parse language (evs ++ [SEnd])) =
    PRejected (RejectObject (msg_no_response language) None) \/
  sse_result (sse_run parse language (evs ++ [SEnd])) =
    PRejected (RejectObject (msg_stream_error language) None).
Proof. apply sse_run_quiet_end. Qed.

Lemma split_aux_no_sep (sep acc s : jstr) :
  includes s sep = false -> split_aux sep 0 acc s = [rev acc ++ s].
Proof.
  revert acc; induction s as [|c t IH]; intros acc H; simpl.
  - rewrite app_nil_r; reflexivity.
  - simpl in H; apply orb_false_iff in H as [H1 H2].
    rewrite H1, IH by exact H2; simpl; rewrite <- app_assoc; reflexivity.
Qed.

Lemma sse_event_delta (parse : jstr -> option jsval) (last d c : jstr) (res : promise jsval) :
  parse d = Some (delta_chunk c) ->
  truthy (JStr (trim d)) = true ->
  jstr_eqb d (s2j "keep-alive") = false ->
  jstr_eqb d (s2j "[DONE]") = false ->
  sse_event parse (mkSSE last res) (sse_data_prefix ++ d) = mkSSE (last ++ c) res.
Proof.
  intros Hp Ht Hk Hd; unfold sse_event.
  replace (is_prefix sse_data_prefix (sse_data_prefix ++ d)) with true by reflexivity.
  replace (skipn 6 (sse_data_prefix ++ d)) with d by reflexivity.
  rewrite Hd, Ht, Hk, Hp.
  destruct c as [|x c]; [rewrite app_nil_r|]; vm_compute; reflexivity.
Qed.

(** For [data: ] events that each carry one delta, followed by the end of the stream, the promise resolves with the concatenated deltas, or is rejected as an empty stream when they are all empty. *)
Theorem sse_run_reassembles (parse : jstr -> option jsval) (language : jstr) (ds cs : list jstr) :
  Forall2 (fun d c => parse d = Some (delta_chunk c) /\
                      includes (sse_data_prefix ++ d) [10; 10]%N = false /\
                      truthy (JStr (trim d)) = true /\
                      jstr_eqb d (s2j "keep-alive") = false /\
                      jstr_eqb d (s2j "[DONE]") = false) ds cs ->
  sse_result (sse_run parse language (map (fun d => SChunk (sse_data_prefix ++ d)) ds ++ [SEnd])) =
    match concat cs with
    | [] => PRejected (RejectObject (msg_no_response language) None)
    | all => PFulfilled (stream_response all)
    end.
Proof.
  intro H; unfold sse_run; rewrite fold_left_app.
  assert (F : forall last, fold_left (sse_step parse language)
                             (map (fun d => SChunk (sse_data_prefix ++ d)) ds) (mkSSE last PPending)
                           = mkSSE (last ++ concat cs) PPending).
  { induction H as [|d c ds cs [Hp [Hi [Ht [Hk Hd]]]] _ IH]; intro last;
      cbn [fold_left map sse_step concat].
    - rewrite app_nil_r; reflexivity.
    - unfold split; rewrite split_aux_no_sep by exact Hi; cbn [rev app fold_left].
      rewrite (sse_event_delta parse last d c PPending) by assumption.
      rewrite IH, app_assoc; reflexivity. }
  rewrite F; simpl; destruct (concat cs); reflexivity.
Qed.

Lemma settle_outcome (language : jstr) (p q : promise jsval) :
  stream_outcome language p -> stream_outcome language q -> stream_outcome language (settle p q).
Proof. destruct p; simpl; auto. Qed.

Lemma sse_event_outcome (parse : jstr -> option jsval) (language : jstr) (st : sse_state) (e : jstr) :
  stream_outcome language (sse_result st) ->
  stream_outcome language (sse_result (sse_event parse st e)).
Proof.
  intro H; destruct (sse_event_extends parse st e) as [_ [R|R]]; [|rewrite R; exact H].
  destruct st as [last res]; simpl in R; subst res; unfold sse_event.
  destruct (is_prefix _ _); [|exact I].
  destruct (jstr_eqb _ _); [exact I|].
  destruct (_ && _); [|exact I].
  destruct (parse _) as [parsed|]; [|exact I].
  destruct (get_prop parsed k_choices) as [ch|]; [|exact I].
  destruct (_ && _); [|exact I]; simpl.
  destruct (prop _ _); try exact I.
  destruct (jstr_eqb _ _); exact I.
Qed.

Lemma sse_fold_outcome (parse : jstr -> option jsval) (language : jstr)
  (evs : list stream_event) (st : sse_state) :
  stream_outcome language (sse_result st) ->
  stream_outcome language (sse_result (fold_left (sse_step parse language) evs st)).
Proof.
  revert st; induction evs as [|ev evs IH]; intros st H; simpl; [exact H|].
  apply IH; destruct ev as [c| |]; simpl.
  - revert st H; generalize (split c [10; 10]%N).
    induction l as [|e l IHl]; intros st H; simpl; [exact H|].
    apply IHl, sse_event_outcome, H.
  - destruct st as [[|x last] res]; apply settle_outcome; simpl; auto.
  - apply settle_outcome; simpl; auto.
Qed.

Lemma by_language_nonempty (language : jstr) (ar en : jstr) :
  ar <> [] -> en <> [] -> by_language language ar en <> [].
Proof. unfold by_language; destruct (is_ar language); auto. Qed.

(** A rejected stream carries one of the three messages, none empty, and
    no status code. *)
Lemma streamDeepSeekAPI_rejection (keys : list jstr) (parse : jstr -> option jsval)
  (net : jstr -> chat_payload -> list stream_event) (payload : chat_payload) (language : jstr)
  (e : js_error) :
  streamDeepSeekAPI keys parse net payload language = PRejected e ->
  message_truthy e = true /\ error_status e = 500.
Proof.
  unfold streamDeepSeekAPI; intro H.
  assert (T : forall m, m <> [] -> message_truthy (RejectObject m None) = true /\
                                  error_status (RejectObject m None) = 500).
  { intros [|x m] Hm; [congruence | split; reflexivity]. }
  destruct (getNextApiKey keys language 0) as [k|m].
  - pose proof (sse_fold_outcome parse language (net k payload) (mkSSE [] PPending) I) as O.
    unfold sse_run in H; rewrite H in O; simpl in O.
    destruct O as [-> | ->]; apply T, by_language_nonempty; discriminate.
  - injection H as <-; apply T, by_language_nonempty; discriminate.
Qed.

Lemma map_option_length {A B} (f : A -> option B) (l : list A) (l' : list B) :
  map_option f l = Some l' -> length l' = length l.
Proof. intro H; symmetry; apply (Forall2_length (map_option_Forall2 f l l' H)). Qed.

Lemma successfulResults_length (subResults : list settled) :
  length (successfulResults subResults) <= length subResults.
Proof.
  unfold successfulResults; induction subResults as [|[v|] t IH]; simpl; [lia| |lia].
  destruct (sv_success v); simpl; lia.
Qed.

Lemma aggregateQueryResults_bounds (subResults : list settled) (query language : jstr) :
  let r := aggregateQueryResults subResults query language in
  length (results r) <= 3 /\
  (forall n, sub_queries_processed r = Some n -> 0 < n <= length subResults).
Proof.
  cbv zeta; pose proof (successfulResults_length subResults) as L.
  unfold aggregateQueryResults; destruct (successfulResults subResults) as [|s succ] eqn:E;
    cbn [results sub_queries_processed]; split.
  - simpl; lia.
  - discriminate.
  - rewrite length_firstn; lia.
  - intros n Hn; injection Hn as <-; simpl in L |- *; lia.
Qed.

Lemma processPartitionedQuery_outcome (keys : list jstr) (parse : jstr -> option jsval)
  (read_results : jsval -> sub_content) (net : jstr -> chat_payload -> list stream_event)
  (query language : jstr) (documents : list (jstr * jsval)) :
  match processPartitionedQuery keys parse read_results net query language documents with
  | PRejected _ => False
  | PPending => True
  | PFulfilled r =>
      length (results r) <= 3 /\
      (forall n, sub_queries_processed r = Some n ->
                 0 < n <= length (splitQueryIntelligently query language))
  end.
Proof.
  unfold processPartitionedQuery.
  destruct (map_option _ _) as [subResults|] eqn:E; [|exact I].
  apply map_option_length in E; rewrite <- E.
  apply aggregateQueryResults_bounds.
Qed.

(** [processPartitionedQuery] never rejects; its answer holds at most 3 results and counts between one and the number of sub-queries as processed. *)
Theorem processPartitionedQuery_never_rejects (keys : list jstr) (parse : jstr -> option jsval)
  (read_results : jsval -> sub_content) (net : jstr -> chat_payload -> list stream_event)
  (query language : jstr) (documents : list (jstr * jsval)) :
  match processPartitionedQuery keys parse read_results net query language documents with
  | PRejected _ => False
  | PPending => True
  | PFulfilled r =>
      length (results r) <= 3 /\
      (forall n, sub_queries_processed r = Some n ->
                 0 < n <= length (splitQueryIntelligently query language))
  end.
Proof. apply processPartitionedQuery_outcome. Qed.

Lemma processSearchResults_le3 (platform : option jstr) (parse : jstr -> option jsval)
  (language : jstr) (apiResponse : jsval) (p : processed) :
  processSearchResults_with platform parse language apiResponse = Ok p ->
  length (ps_results p) <= 3.
Proof.
  unfold processSearchResults_with; intro H.
  destruct (read_content apiResponse) as [c|]; [|discriminate].
  destruct (parse (to_js_string c)) as [pc|]; [|discriminate].
  destruct (get_prop pc k_results) as [r|]; [|discriminate].
  destruct (length_is_zero (js_or r (JArr []))).
  - injection H as <-; simpl; lia.
  - destruct (js_or r (JArr [])) as [| | | | |l|]; try discriminate.
    destruct (map_index_from (process_item language) 0 (firstn 3 l)) as [items|] eqn:Ei;
      [|discriminate].
    injection H as <-; simpl.
    destruct (map_index_from_items _ _ _ _ Ei) as [L1 _].
    rewrite L1, length_firstn; lia.
Qed.

Lemma catch_response_post (event : http_event) (e : js_error) :
  message_truthy e = true -> error_status e = 500 -> handler_post event (catch_response e).
Proof. intros H1 H2; unfold catch_response; rewrite H1; simpl; rewrite H2; discriminate. Qed.

Lemma respond_processed_post (event : http_event) (parse : jstr -> option jsval) (language : jstr)
  (v : jsval) : handler_post event (respond_processed parse language v).
Proof.
  unfold respond_processed.
  destruct (processSearchResults parse language v) as [p|m] eqn:E.
  - intros _; right; exists p; split; [reflexivity|].
    exact (processSearchResults_le3 _ _ _ _ _ E).
  - unfold processSearchResults in E; unfold processSearchResults_with in E.
    assert (m = msg_failed_process) as ->.
    { repeat match type of E with
             | context [match ?x with _ => _ end] => destruct x
             end; congruence. }
    apply catch_response_post; reflexivity.
Qed.

Lemma handle_search_post (event : http_event) (keys : list jstr) (parse : jstr -> option jsval)
  (read_results : jsval -> sub_content)
  (loadLegalDocuments : jstr -> option (list (jstr * jsval)))
  (net : jstr -> chat_payload -> list stream_event) (query language : jstr) :
  handler_post event (handle_search keys parse read_results loadLegalDocuments net query language).
Proof.
  unfold handle_search.
  destruct (loadLegalDocuments language) as [documents|]; [|discriminate].
  destruct (_ && _).
  - pose proof (processPartitionedQuery_outcome keys parse read_results net query language documents)
      as O.
    destruct (processPartitionedQuery _ _ _ _ _ _ _); [exact I | apply respond_processed_post |
                                                        contradiction].
  - destruct (optimizeDocumentsForArabic documents language) as [od|];
      [|apply catch_response_post; reflexivity].
    destruct (streamDeepSeekAPI _ _ _ _ _) eqn:E; [exact I | apply respond_processed_post |].
    destruct (streamDeepSeekAPI_rejection _ _ _ _ _ _ E); apply catch_response_post; assumption.
Qed.

Lemma handler_post_holds (keys : list jstr) (parse : jstr -> option jsval)
  (read_results : jsval -> sub_content)
  (loadLegalDocuments : jstr -> option (list (jstr * jsval)))
  (net : jstr -> chat_payload -> list stream_event) (event : http_event) :
  handler_post event (handler keys parse read_results loadLegalDocuments net event).
Proof.
  unfold handler.
  destruct (jstr_eqb (httpMethod event) (s2j "OPTIONS")) eqn:Eo.
  { intros _; left; split; [exact Eo | reflexivity]. }
  destruct keys as [|k ks]; [apply catch_response_post; vm_compute; reflexivity|].
  destruct (jstr_eqb (httpMethod event) (s2j "POST"));
    [destruct (post_params parse event) as [[query language]|]; [|discriminate]
    |destruct (jstr_eqb (httpMethod event) (s2j "GET")); [destruct (get_params event) as [query language]|discriminate]];
    (destruct (validateRequest query language) as [v|m]; [|apply catch_response_post; reflexivity];
     destruct (negb (isValid v)); [discriminate | apply handle_search_post]).
Qed.

(** The handler never rejects: the fallback of its [catch], which reads the block-scoped [language], is never evaluated. *)
Theorem handler_never_rejects (keys : list jstr) (parse : jstr -> option jsval)
  (read_results : jsval -> sub_content)
  (loadLegalDocuments : jstr -> option (list (jstr * jsval)))
  (net : jstr -> chat_payload -> list stream_event) (event : http_event) :
  match handler keys parse read_results loadLegalDocuments net event with
  | PRejected _ => False
  | _ => True
  end.
Proof.
  pose proof (handler_post_holds keys parse read_results loadLegalDocuments net event) as H.
  destruct (handler _ _ _ _ _ _); [exact I | exact I | exact H].
Qed.

(** A response with status 200 is the answer to a preflight request or processed results with at most 3 entries. *)
Theorem handler_ok_response (keys : list jstr) (parse : jstr -> option jsval)
  (read_results : jsval -> sub_content)
  (loadLegalDocuments : jstr -> option (list (jstr * jsval)))
  (net : jstr -> chat_payload -> list stream_event) (event : http_event) (r : response) :
  handler keys parse read_results loadLegalDocuments net event = PFulfilled r ->
  statusCode r = 200 ->
  (httpMethod event = s2j "OPTIONS" /\ response_body r = RespEmpty) \/
  exists ps, response_body r = RespResults ps /\ length (ps_results ps) <= 3.
Proof.
  intros H S.
  pose proof (handler_post_holds keys parse read_results loadLegalDocuments net event) as P.
  rewrite H in P; destruct (P S) as [[Eo Eb] | R]; [left | right; exact R].
  split; [apply jstr_eqb_eq; exact Eo | exact Eb].
Qed.

(** On the partitioned path, an Arabic query longer than 10 code units once trimmed, the handler never answers 200: [processSearchResults] reads the [undefined] function-scoped [apiResponse], so the answer is a 500 with ['Failed to process search results']. *)
Theorem handle_search_partitioned_fails (keys : list jstr) (parse : jstr -> option jsval)
  (read_results : jsval -> sub_content)
  (loadLegalDocuments : jstr -> option (list (jstr * jsval)))
  (net : jstr -> chat_payload -> list stream_event) (query language : jstr)
  (documents : list (jstr * jsval)) :
  is_ar language = true ->
  Nat.ltb 10 (length (trim query)) = true ->
  loadLegalDocuments language = Some documents ->
  handle_search keys parse read_results loadLegalDocuments net query language = PPending \/
  handle_search keys parse read_results loadLegalDocuments net query language =
    PFulfilled (mkResponse 500 (RespCaught (Error_ msg_failed_process))).
Proof.
  intros Ha Hl Hd; unfold handle_search; rewrite Hd, Ha, Hl; cbn [andb].
  pose proof (processPartitionedQuery_outcome keys parse read_results net query language documents)
    as O.
  destruct (processPartitionedQuery _ _ _ _ _ _ _); [left; reflexivity | right | contradiction].
  reflexivity.
Qed.

(** When the upstream answers without any [data: ] event, as with a JSON error body, the single-stream path answers 500 with the message of an empty stream or of a connection error. *)
Theorem handle_search_upstream_not_sse (keys : list jstr) (parse : jstr -> option jsval)
  (read_results : jsval -> sub_content)
  (loadLegalDocuments : jstr -> option (list (jstr * jsval)))
  (net : jstr -> chat_payload -> list stream_event) (query language : jstr)
  (documents optimizedDocs : list (jstr * jsval)) (evs : list stream_event) :
  (is_ar language && Nat.ltb 10 (length (trim query))) = false ->
  loadLegalDocuments language = Some documents ->
  optimizeDocumentsForArabic documents language = Some optimizedDocs ->
  keys <> [] ->
  (forall apiKey payload, net apiKey payload = evs ++ [SEnd]) ->
  Forall (fun ev => match ev with
                    | SChunk c => forallb (fun e => negb (is_prefix sse_data_prefix e))
                                          (split c [10; 10]%N) = true
                    | _ => True
                    end) evs ->
  handle_search keys parse read_results loadLegalDocuments net query language =
    PFulfilled (mkResponse 500 (RespCaught (RejectObject (msg_no_response language) None))) \/
  handle_search keys parse read_results loadLegalDocuments net query language =
    PFulfilled (mkResponse 500 (RespCaught (RejectObject (msg_stream_error language) None))).
Proof.
  intros Hp Hd Ho Hk Hn Hevs; unfold handle_search; rewrite Hd, Hp, Ho.
  unfold streamDeepSeekAPI; destruct keys as [|k ks]; [congruence|]; cbn [getNextApiKey].
  rewrite Hn.
  destruct (sse_run_quiet_end parse language evs Hevs) as [E|E]; rewrite E;
    [left | right]; unfold catch_response, msg_no_response, msg_stream_error, by_language;
    destruct (is_ar language); reflexivity.
Qed.

Lemma same_value_zero_eq (a b : jsval) : same_value_zero a b = true -> a = b.
Proof.
  destruct a, b; simpl; try discriminate; auto.
  - intro H; apply Bool.eqb_prop in H; subst; reflexivity.
  - intro H; apply Z.eqb_eq in H; subst; reflexivity.
  - intro H; apply jstr_eqb_eq in H; subst; reflexivity.
Qed.

Lemma article_key_single (r a : jsval) :
  In a (article_key r) ->
  a = prop r k_article_number /\ truthy a = true /\ same_value_zero a a = true.
Proof.
  unfold article_key; destruct (prop r k_article_number) as [| |[]|z|[|x s]| |]; simpl;
    try tauto.
  - intros [<- | []]; auto.
  - destruct (Z.eqb z 0) eqn:Ez; simpl; [tauto|].
    intros [<- | []]; simpl; rewrite Ez, Z.eqb_refl; auto.
  - intros [<- | []]; simpl; rewrite N.eqb_refl.
    assert (jstr_eqb s s = true) as -> by (apply jstr_eqb_eq; reflexivity); auto.
Qed.

Lemma article_key_NoDup (r : jsval) : NoDup (article_key r).
Proof.
  unfold article_key; destruct (prop r k_article_number) as [| |[]|z|[|x s]| |];
    try destruct (Z.eqb z 0); repeat constructor; simpl; tauto.
Qed.

Lemma merge_unique_step (seen unique t u : list jsval) (r : jsval) :
  merge_unique seen unique (r :: t) = Some u ->
  let aid := js_or (prop r k_article_number) (JStr (s2j "result_" ++ index_key (length unique))) in
  (if existsb (same_value_zero aid) seen then merge_unique seen unique t
   else merge_unique (aid :: seen) (unique ++ [r]) t) = Some u.
Proof. intro H; destruct r; cbn [merge_unique get_prop] in H; try discriminate; exact H. Qed.

Lemma merge_unique_distinct (seen unique l u : list jsval) :
  merge_unique seen unique l = Some u ->
  (forall a, In a (flat_map article_key unique) -> In a seen) ->
  NoDup (flat_map article_key unique) ->
  NoDup (flat_map article_key u) /\ incl u (unique ++ l).
Proof.
  revert seen unique; induction l as [|r t IH]; intros seen unique H Hs Hn.
  - injection H as <-; split; [exact Hn | rewrite app_nil_r; apply incl_refl].
  - apply merge_unique_step in H; cbv zeta in H.
    remember (js_or (prop r k_article_number) (JStr (s2j "result_" ++ index_key (length unique))))
      as aid eqn:Eaid.
    destruct (existsb (same_value_zero aid) seen) eqn:Ex.
    + destruct (IH _ _ H Hs Hn) as [N I]; split; [exact N|].
      intros x Hx; apply I, in_app_or in Hx as [Hx|Hx]; apply in_or_app; simpl; tauto.
    + assert (Hr : forall a, In a (article_key r) -> aid = a /\ ~ In a seen).
      { intros a Ha; destruct (article_key_single r a Ha) as [E1 [E2 E3]].
        assert (aid = a) as <- by (subst aid; unfold js_or; rewrite <- E1, E2; reflexivity).
        split; [reflexivity|]; intro Hin.
        assert (existsb (same_value_zero aid) seen = true) by
          (apply existsb_exists; exists aid; split; assumption).
        congruence. }
      destruct (IH _ _ H) as [N I].
      * intros a Ha; rewrite flat_map_app in Ha; apply in_app_or in Ha as [Ha|Ha];
          [right; apply Hs, Ha|].
        simpl in Ha; rewrite app_nil_r in Ha; left; apply (Hr a Ha).
      * rewrite flat_map_app; apply NoDup_app; [exact Hn | simpl; rewrite app_nil_r; apply article_key_NoDup|].
        intros a Ha1 Ha2; simpl in Ha2; rewrite app_nil_r in Ha2.
        exact (proj2 (Hr a Ha2) (Hs a Ha1)).
      * split; [exact N|]; intros x Hx; apply I in Hx; rewrite <- app_assoc in Hx; exact Hx.
Qed.


Lemma firstn_sort_from (sort : list jsval -> list jsval) (unique : list jsval) :
  (forall l, Permutation (sort l) l) -> incl (firstn 3 (sort unique)) unique.
Proof.
  intros Hs x Hx; apply (Permutation_in _ (Hs unique)).
  rewrite <- (firstn_skipn 3 (sort unique)); apply in_or_app; left; exact Hx.
Qed.

(** The answer of the api/search.js [processPartitionedQuery] holds at most 3 results, all from the partitions' answers, and no two of them share a primitive article number. *)
Theorem processPartitionedQuery_vercel_top (keys : list jstr) (parse : jstr -> option jsval)
  (up : jstr -> chat_payload -> vercel_upstream) (sort : list jsval -> list jsval)
  (stringify : jsval -> jstr) (query language : jstr) (documents : list (jstr * jsval))
  (resp : jsval) :
  (forall l, Permutation (sort l) l) ->
  processPartitionedQuery_vercel keys parse up sort stringify query language documents = PFulfilled resp ->
  exists allResults top,
    collect_partitions keys parse up query language (partitionDocuments documents) = Some allResults /\
    resp = partitioned_response stringify top /\
    length top <= 3 /\ incl top allResults /\ NoDup (flat_map article_key top).
Proof.
  intros Hs H; unfold processPartitionedQuery_vercel in H.
  destruct (collect_partitions _ _ _ _ _ _) as [allResults|]; [|discriminate].
  destruct (merge_unique [] [] allResults) as [u|] eqn:Em; [|discriminate].
  injection H as <-.
  destruct (merge_unique_distinct _ _ _ _ Em) as [N I]; [simpl; tauto | constructor|].
  exists allResults, (firstn 3 (sort u)); split; [reflexivity|]; split; [reflexivity|].
  split; [rewrite length_firstn; lia|]; split.
  - intros x Hx; apply (I x), (firstn_sort_from sort u Hs), Hx.
  - apply (Permutation_NoDup (Permutation_flat_map article_key (Permutation_sym (Hs u)))) in N.
    rewrite <- (firstn_skipn 3 (sort u)), flat_map_app in N.
    exact (NoDup_app_remove_r _ _ N).
Qed.



Lemma uint_to_jstr_inj (a b : Decimal.uint) : uint_to_jstr a = uint_to_jstr b -> a = b.
Proof.
  revert b; induction a; destruct b; simpl; intro H; try discriminate; try reflexivity;
    injection H as H; f_equal; auto.
Qed.

Lemma index_key_inj (a b : nat) : index_key a = index_key b -> a = b.
Proof.
  unfold index_key; intro H; apply uint_to_jstr_inj in H.
  rewrite <- (Unsigned.of_to a), <- (Unsigned.of_to b), H; reflexivity.
Qed.

Lemma is_prefix_self (p x : jstr) : is_prefix p (p ++ x) = true.
Proof. induction p as [|c p IH]; simpl; [reflexivity|]; rewrite N.eqb_refl; exact IH. Qed.

Lemma merge_unique_unnumbered (seen unique l u : list jsval) :
  Forall (fun r => forall s, prop r k_article_number = JStr s ->
                             is_prefix (s2j "result_") s = false) l ->
  placeholder_seen seen (length unique) ->
  merge_unique seen unique l = Some u ->
  filter (fun r => negb (truthy (prop r k_article_number))) u =
  filter (fun r => negb (truthy (prop r k_article_number))) unique ++
  filter (fun r => negb (truthy (prop r k_article_number))) l.
Proof.
  intro Hl; revert seen unique; induction Hl as [|r t Hr Ht IH]; intros seen unique Hs H.
  - injection H as <-; rewrite app_nil_r; reflexivity.
  - apply merge_unique_step in H; cbv zeta in H.
    remember (js_or (prop r k_article_number) (JStr (s2j "result_" ++ index_key (length unique))))
      as aid eqn:Eaid.
    destruct (existsb (same_value_zero aid) seen) eqn:Ex.
    + rewrite (IH _ _ Hs H); simpl.
      destruct (truthy (prop r k_article_number)) eqn:Et; [reflexivity|].
      exfalso; unfold js_or in Eaid; rewrite Et in Eaid.
      apply existsb_exists in Ex as [a [Ha Hsv]]; apply same_value_zero_eq in Hsv; subst a aid.
      destruct (Hs _ Ha (is_prefix_self _ _)) as [j [Hj Ej]].
      apply app_inv_head, index_key_inj in Ej; lia.
    + rewrite (IH (aid :: seen) (unique ++ [r])), filter_app, <- app_assoc;
        [simpl; destruct (negb _); reflexivity | | exact H].
      intros s [Hin|Hin] Hp.
      * subst aid; unfold js_or in Hin; destruct (truthy (prop r k_article_number)) eqn:Et.
        -- rewrite (Hr s Hin) in Hp; discriminate.
        -- injection Hin as <-; exists (length unique); rewrite length_app; split; [simpl; lia|reflexivity].
      * destruct (Hs s Hin Hp) as [j [Hj Ej]]; exists j; rewrite length_app; split; [lia | exact Ej].
Qed.

(** When no article number is a string starting with [result_], the merge of api/search.js keeps every result without an article number, in order. *)
Theorem merge_unique_keeps_unnumbered (allResults uniqueResults : list jsval) :
  Forall (fun r => forall s, prop r k_article_number = JStr s ->
                             is_prefix (s2j "result_") s = false) allResults ->
  merge_unique [] [] allResults = Some uniqueResults ->
  filter (fun r => negb (truthy (prop r k_article_number))) uniqueResults =
  filter (fun r => negb (truthy (prop r k_article_number))) allResults.
Proof.
  intros Hl H; rewrite (merge_unique_unnumbered [] [] allResults uniqueResults Hl); [reflexivity| |exact H].
  intros s [].
Qed.

(** ** Witnesses: the claims' theorems at concrete inputs *)

Lemma getNextApiKey_selection_witness :
  keys3 <> [] /\
  getNextApiKey keys3 lang_ar 0 = Ok (nth (spec_select_index lang_ar 0 (length keys3)) keys3 []).
Proof.
  split; [discriminate|].
  apply (proj1 (getNextApiKey_selection keys3 lang_ar 0)); discriminate.
Defined.

Lemma splitQueryIntelligently_no_connector_witness :
  is_ar (s2j "en") = false /\ includes (s2j " rules ") (s2j " and ") = false /\
  splitQueryIntelligently (s2j " rules ") (s2j "en") = [s2j " rules "].
Proof.
  split; [reflexivity|split; [vm_compute; reflexivity|]].
  apply (proj1 (splitQueryIntelligently_no_connector (s2j " rules ") (s2j "en")));
    vm_compute; reflexivity.
Defined.

Lemma splitQueryIntelligently_shape_witness :
  is_ar lang_ar = true /\
  ((1 <= length (splitQueryIntelligently [1605;1575;1583;1577;32;1608;32;1593]%N lang_ar) <= 3 /\
    Forall (fun q => 2 < length q)
           (splitQueryIntelligently [1605;1575;1583;1577;32;1608;32;1593]%N lang_ar)) \/
   splitQueryIntelligently [1605;1575;1583;1577;32;1608;32;1593]%N lang_ar
   = [[1605;1575;1583;1577;32;1608;32;1593]]%N).
Proof.
  split; [reflexivity|].
  apply (proj1 (splitQueryIntelligently_shape [1605;1575;1583;1577;32;1608;32;1593]%N lang_ar)).
  reflexivity.
Defined.

Lemma aggregateQueryResults_all_failed_witness :
  Forall (fun r => match r with Fulfilled v => sv_success v = false | Rejected => True end)
         [Rejected; Fulfilled (mkSubValue (s2j "q") false Unparsable)] /\
  aggregateQueryResults [Rejected; Fulfilled (mkSubValue (s2j "q") false Unparsable)]
                        (s2j "q") lang_ar
  = {| results := []; total_results := 0; query_language := lang_ar;
       error := Some msg_failed_ar; partitioned_search := None;
       sub_queries_processed := None |}.
Proof.
  assert (H : Forall (fun r => match r with Fulfilled v => sv_success v = false
                                           | Rejected => True end)
                     [Rejected; Fulfilled (mkSubValue (s2j "q") false Unparsable)])
    by (repeat constructor).
  split; [exact H|].
  exact (aggregateQueryResults_all_failed _ (s2j "q") lang_ar H).
Defined.

Lemma partitionDocuments_cover_witness :
  truthy (JArr (repeat (JObj [(k_title, JStr (s2j "T"))]) 55)) = true /\
  exists parts,
    partitionDocuments corpus55
    = map (fun part => JObj [(s2j "articles", JObj part)]) parts /\
    concat parts = entries (JArr (repeat (JObj [(k_title, JStr (s2j "T"))]) 55)) /\
    Forall (fun p => 0 < length p /\
                     length p <= ceil_div3 (length (entries (JArr (repeat (JObj [(k_title, JStr (s2j "T"))]) 55)))))
           parts /\
    Forall (fun p => length p = ceil_div3 (length (entries (JArr (repeat (JObj [(k_title, JStr (s2j "T"))]) 55)))))
           (removelast parts).
Proof.
  split; [reflexivity|].
  exact (partitionDocuments_cover (s2j "articles")
           (JArr (repeat (JObj [(k_title, JStr (s2j "T"))]) 55))
           [(s2j "appendices", JArr [JNum 9%Z])] eq_refl).
Defined.

Lemma optimizeDocumentsForArabic_first_section_witness :
  exists out,
    optimizeDocumentsForArabic docs_with_appendix lang_ar = Some out /\
    exists fs, out = [(s2j "articles", JObj fs)] /\
      map fst fs = [s2j "0"].
Proof.
  eexists; split; [vm_compute; reflexivity|].
  destruct (optimizeDocumentsForArabic_first_section (s2j "articles")
              (JArr [JObj [(s2j "article_number", JNum 100%Z); (k_title, JStr (s2j "T"));
                           (k_text, JStr (s2j "x"))]])
              [(s2j "appendices", JArr [JNum 9%Z])] lang_ar _ eq_refl
              ltac:(vm_compute; reflexivity)) as [fs [Hout [Hk _]]].
  exists fs; split; [exact Hout|exact Hk].
Defined.

Lemma aggregateQueryResults_top3_sorted_witness :
  partitioned_search (aggregateQueryResults outcomes_scores (s2j "q") (s2j "en")) = Some true /\
  length (results (aggregateQueryResults outcomes_scores (s2j "q") (s2j "en"))) <= 3 /\
  Sorted score_desc (results (aggregateQueryResults outcomes_scores (s2j "q") (s2j "en"))).
Proof.
  destruct (aggregateQueryResults_top3_sorted outcomes_scores (s2j "q") (s2j "en"))
    as [H1 [H2 [H3 _]]].
  - eexists; split; [left; reflexivity|reflexivity].
  - split; [exact H1|split; [exact H2|exact H3]].
Defined.

Lemma aggregateQueryResults_dedup_first_witness :
  AStr (s2j "101") <> ANone /\
  length (filter (fun r => artnum_eqb (article_number r) (AStr (s2j "101")))
                 (results (aggregateQueryResults outcomes_105 (s2j "q") (s2j "en")))) <= 1.
Proof.
  split; [discriminate|].
  apply (aggregateQueryResults_dedup_first outcomes_105 (s2j "q") (s2j "en") (AStr (s2j "101"))).
  discriminate.
Defined.

(** ** Witnesses of the further properties *)


Lemma getNextApiKey_configured_witness :
  getNextApiKey (DEEPSEEK_API_KEYS [Some (s2j "k1"); None; Some (s2j "k2")]) (s2j "ar") 0
    = Ok (s2j "k2") /\
  In (Some (s2j "k2")) [Some (s2j "k1"); None; Some (s2j "k2")] /\ s2j "k2" <> [].
Proof.
  assert (H : getNextApiKey (DEEPSEEK_API_KEYS [Some (s2j "k1"); None; Some (s2j "k2")])
                (s2j "ar") 0 = Ok (s2j "k2")) by (vm_compute; reflexivity).
  split; [exact H | exact (getNextApiKey_configured _ _ _ _ H)].
Defined.

Lemma key_index_retries_distinct_witness :
  3 <= length [s2j "k1"; s2j "k2"; s2j "k3"] /\
  NoDup (map (fun retryCount => key_index (s2j "ar") retryCount 3) (seq 5 3)).
Proof.
  assert (H : 3 <= length [s2j "k1"; s2j "k2"; s2j "k3"]) by (simpl; lia).
  split; [exact H | exact (key_index_retries_distinct [s2j "k1"; s2j "k2"; s2j "k3"] (s2j "ar") 5 3 H)].
Defined.

Lemma optimizeDocumentsForArabic_idempotent_witness :
  let optimized := match optimizeDocumentsForArabic demo_corpus (s2j "ar") with
                   | Some o => o | None => [] end in
  optimizeDocumentsForArabic demo_corpus (s2j "ar") = Some optimized /\
  optimizeDocumentsForArabic optimized (s2j "ar") = Some optimized.
Proof.
  intro optimized.
  assert (H : optimizeDocumentsForArabic demo_corpus (s2j "ar") = Some optimized)
    by (vm_compute; reflexivity).
  split; [exact H | exact (optimizeDocumentsForArabic_idempotent _ _ _ H)].
Defined.

Lemma optimizeDocumentsForArabic_vercel_agrees_witness :
  Forall (fun e => truthy (prop (snd e) k_title_ar) = false /\
                   truthy (prop (snd e) k_text_ar) = false /\
                   truthy (prop (snd e) k_tables_ar) = false)
         (entries (snd (hd (s2j "", JUndef) demo_corpus))) /\
  optimizeDocumentsForArabic_vercel demo_corpus (s2j "ar")
  = optimizeDocumentsForArabic demo_corpus (s2j "ar").
Proof.
  assert (H : Forall (fun e => truthy (prop (snd e) k_title_ar) = false /\
                               truthy (prop (snd e) k_text_ar) = false /\
                               truthy (prop (snd e) k_tables_ar) = false)
                     (entries (snd (hd (s2j "", JUndef) demo_corpus))))
    by (vm_compute; repeat constructor).
  split; [exact H|].
  exact (optimizeDocumentsForArabic_vercel_agrees _ _ [] (s2j "ar") H).
Defined.

Lemma splitQueryIntelligently_english_pieces_witness :
  is_ar (s2j "en") = false /\
  exists pieces, join_with (s2j " and ") pieces = s2j "fines and  appeals" /\
    splitQueryIntelligently (s2j "fines and  appeals") (s2j "en")
    = if includes (s2j "fines and  appeals") (s2j " and ") then map trim pieces else pieces.
Proof.
  assert (H : is_ar (s2j "en") = false) by reflexivity.
  split; [exact H | exact (splitQueryIntelligently_english_pieces _ _ H)].
Defined.

Lemma partitionDocuments_count_witness :
  truthy demo_articles = true /\
  length (partitionDocuments [(s2j "rules", demo_articles)]) = 3.
Proof.
  assert (H : truthy demo_articles = true) by reflexivity.
  split; [exact H|].
  rewrite (partitionDocuments_count (s2j "rules") demo_articles [] H); reflexivity.
Defined.

Lemma cache_store_bounded_witness :
  NoDup (map fst [(s2j "a", 1)]) /\ length [(s2j "a", 1)] <= 50 /\
  cache_get (s2j "b") (cache_store (s2j "b") 2 [(s2j "a", 1)]) = Some 2.
Proof.
  assert (H1 : NoDup (map fst [(s2j "a", 1)])) by (repeat constructor; simpl; tauto).
  assert (H2 : length [(s2j "a", 1)] <= 50) by (simpl; lia).
  split; [exact H1|]; split; [exact H2|].
  exact (proj2 (proj2 (cache_store_bounded (s2j "b") 2 [(s2j "a", 1)] H1 H2))).
Defined.

Lemma escapeRegex_no_backslash_witness :
  ~ In 92%N (s2j "a.b*[c]") /\ escapeRegex (s2j "a.b*[c]") = s2j "a.b*[c]".
Proof.
  assert (H : ~ In 92%N (s2j "a.b*[c]")) by (vm_compute; intuition discriminate).
  split; [exact H | exact (escapeRegex_no_backslash _ H)].
Defined.

Lemma processSearchResults_shape_witness :
  let p := match processSearchResults_with None demo_parse (s2j "en") (stream_response (s2j "C")) with
           | Ok p => p | Throw _ => mkProcessed false [] [] 0 None [] None end in
  processSearchResults_with None demo_parse (s2j "en") (stream_response (s2j "C")) = Ok p /\
  length (ps_results p) = Nat.min 3 (ps_total_results p).
Proof.
  intro p.
  assert (H : processSearchResults_with None demo_parse (s2j "en") (stream_response (s2j "C")) = Ok p)
    by (vm_compute; reflexivity).
  split; [exact H | exact (proj1 (processSearchResults_shape _ _ _ _ _ H))].
Defined.

Lemma sse_run_without_data_witness :
  Forall (fun ev => match ev with
                    | SChunk c => forallb (fun e => negb (is_prefix sse_data_prefix e))
                                          (split c [10; 10]%N) = true
                    | _ => True
                    end) [SChunk (s2j "error: 401"); SError] /\
  (sse_result (sse_run demo_parse (s2j "en") ([SChunk (s2j "error: 401"); SError] ++ [SEnd])) =
     PRejected (RejectObject (msg_no_response (s2j "en")) None) \/
   sse_result (sse_run demo_parse (s2j "en") ([SChunk (s2j "error: 401"); SError] ++ [SEnd])) =
     PRejected (RejectObject (msg_stream_error (s2j "en")) None)).
Proof.
  assert (H : Forall (fun ev => match ev with
                                | SChunk c => forallb (fun e => negb (is_prefix sse_data_prefix e))
                                                      (split c [10; 10]%N) = true
                                | _ => True
                                end) [SChunk (s2j "error: 401"); SError])
    by (repeat constructor).
  split; [exact H | exact (sse_run_without_data _ _ _ H)].
Defined.

Lemma sse_run_reassembles_witness :
  Forall2 (fun d c => (fun s => Some (delta_chunk s)) d = Some (delta_chunk c) /\
                      includes (sse_data_prefix ++ d) [10; 10]%N = false /\
                      truthy (JStr (trim d)) = true /\
                      jstr_eqb d (s2j "keep-alive") = false /\
                      jstr_eqb d (s2j "[DONE]") = false)
          [s2j "Fin"; s2j "es"] [s2j "Fin"; s2j "es"] /\
  sse_result (sse_run (fun s => Some (delta_chunk s)) (s2j "en")
                (map (fun d => SChunk (sse_data_prefix ++ d)) [s2j "Fin"; s2j "es"] ++ [SEnd])) =
    PFulfilled (stream_response (s2j "Fines")).
Proof.
  assert (H : Forall2 (fun d c => (fun s => Some (delta_chunk s)) d = Some (delta_chunk c) /\
                                  includes (sse_data_prefix ++ d) [10; 10]%N = false /\
                                  truthy (JStr (trim d)) = true /\
                                  jstr_eqb d (s2j "keep-alive") = false /\
                                  jstr_eqb d (s2j "[DONE]") = false)
                      [s2j "Fin"; s2j "es"] [s2j "Fin"; s2j "es"])
    by (repeat constructor).
  split; [exact H|].
  rewrite (sse_run_reassembles _ _ _ _ H); reflexivity.
Defined.

Lemma handler_ok_response_witness :
  let r := match handler [s2j "k"] demo_parse demo_read_results demo_load demo_net
                   (mkEvent (s2j "GET") JUndef (JObj [(s2j "q", JStr (s2j "speed"))])) with
           | PFulfilled r => r | _ => mkResponse 0 RespEmpty end in
  handler [s2j "k"] demo_parse demo_read_results demo_load demo_net
          (mkEvent (s2j "GET") JUndef (JObj [(s2j "q", JStr (s2j "speed"))])) = PFulfilled r /\
  statusCode r = 200 /\
  ((httpMethod (mkEvent (s2j "GET") JUndef (JObj [(s2j "q", JStr (s2j "speed"))])) = s2j "OPTIONS" /\
    response_body r = RespEmpty) \/
   exists ps, response_body r = RespResults ps /\ length (ps_results ps) <= 3).
Proof.
  intro r.
  assert (H1 : handler [s2j "k"] demo_parse demo_read_results demo_load demo_net
                 (mkEvent (s2j "GET") JUndef (JObj [(s2j "q", JStr (s2j "speed"))])) = PFulfilled r)
    by (vm_compute; reflexivity).
  assert (H2 : statusCode r = 200) by (vm_compute; reflexivity).
  split; [exact H1|]; split; [exact H2|].
  exact (handler_ok_response _ _ _ _ _ _ _ H1 H2).
Defined.

Lemma handle_search_partitioned_fails_witness :
  is_ar (s2j "ar") = true /\ Nat.ltb 10 (length (trim arabic_query)) = true /\
  demo_load (s2j "ar") = Some [] /\
  (handle_search [s2j "k"] demo_parse demo_read_results demo_load demo_net arabic_query (s2j "ar")
     = PPending \/
   handle_search [s2j "k"] demo_parse demo_read_results demo_load demo_net arabic_query (s2j "ar")
     = PFulfilled (mkResponse 500 (RespCaught (Error_ msg_failed_process)))).
Proof.
  assert (H1 : is_ar (s2j "ar") = true) by reflexivity.
  assert (H2 : Nat.ltb 10 (length (trim arabic_query)) = true) by (vm_compute; reflexivity).
  assert (H3 : demo_load (s2j "ar") = Some []) by reflexivity.
  split; [exact H1|]; split; [exact H2|]; split; [exact H3|].
  exact (handle_search_partitioned_fails _ _ _ _ _ _ _ _ H1 H2 H3).
Defined.

Lemma handle_search_upstream_not_sse_witness :
  (is_ar (s2j "en") && Nat.ltb 10 (length (trim (s2j "speed")))) = false /\
  demo_load (s2j "en") = Some [] /\
  optimizeDocumentsForArabic [] (s2j "en") = Some [] /\
  [s2j "k"] <> [] /\
  (forall apiKey payload,
     (fun (_ : jstr) (_ : chat_payload) => [SChunk (s2j "{error: 401}"); SEnd]) apiKey payload
     = [SChunk (s2j "{error: 401}")] ++ [SEnd]) /\
  (handle_search [s2j "k"] demo_parse demo_read_results demo_load
     (fun _ _ => [SChunk (s2j "{error: 401}"); SEnd]) (s2j "speed") (s2j "en") =
     PFulfilled (mkResponse 500 (RespCaught (RejectObject (msg_no_response (s2j "en")) None))) \/
   handle_search [s2j "k"] demo_parse demo_read_results demo_load
     (fun _ _ => [SChunk (s2j "{error: 401}"); SEnd]) (s2j "speed") (s2j "en") =
     PFulfilled (mkResponse 500 (RespCaught (RejectObject (msg_stream_error (s2j "en")) None)))).
Proof.
  assert (H1 : (is_ar (s2j "en") && Nat.ltb 10 (length (trim (s2j "speed")))) = false)
    by reflexivity.
  assert (H2 : demo_load (s2j "en") = Some []) by reflexivity.
  assert (H3 : optimizeDocumentsForArabic [] (s2j "en") = Some []) by reflexivity.
  assert (H4 : [s2j "k"] <> []) by discriminate.
  assert (H5 : forall apiKey payload,
             (fun (_ : jstr) (_ : chat_payload) => [SChunk (s2j "{error: 401}"); SEnd]) apiKey payload
             = [SChunk (s2j "{error: 401}")] ++ [SEnd]) by reflexivity.
  assert (H6 : Forall (fun ev => match ev with
                                 | SChunk c => forallb (fun e => negb (is_prefix sse_data_prefix e))
                                                       (split c [10; 10]%N) = true
                                 | _ => True
                                 end) [SChunk (s2j "{error: 401}")]) by (repeat constructor).
  repeat (split; [assumption|]).
  exact (handle_search_upstream_not_sse _ _ _ _ _ _ _ _ _ _ H1 H2 H3 H4 H5 H6).
Defined.

Lemma processPartitionedQuery_vercel_top_witness :
  let resp := match processPartitionedQuery_vercel [s2j "k"] demo_vparse demo_up demo_sort
                      demo_stringify (s2j "fines") (s2j "ar") [(s2j "rules", demo_articles)] with
              | PFulfilled v => v | _ => JUndef end in
  (forall l, Permutation (demo_sort l) l) /\
  processPartitionedQuery_vercel [s2j "k"] demo_vparse demo_up demo_sort demo_stringify
    (s2j "fines") (s2j "ar") [(s2j "rules", demo_articles)] = PFulfilled resp /\
  exists allResults top,
    collect_partitions [s2j "k"] demo_vparse demo_up (s2j "fines") (s2j "ar")
      (partitionDocuments [(s2j "rules", demo_articles)]) = Some allResults /\
    resp = partitioned_response demo_stringify top /\
    length top <= 3 /\ incl top allResults /\ NoDup (flat_map article_key top).
Proof.
  intro resp.
  assert (H1 : forall l, Permutation (demo_sort l) l) by (intro l; apply Permutation_refl).
  assert (H2 : processPartitionedQuery_vercel [s2j "k"] demo_vparse demo_up demo_sort demo_stringify
                 (s2j "fines") (s2j "ar") [(s2j "rules", demo_articles)] = PFulfilled resp)
    by (vm_compute; reflexivity).
  split; [exact H1|]; split; [exact H2|].
  exact (processPartitionedQuery_vercel_top _ _ _ _ _ _ _ _ _ H1 H2).
Defined.


Lemma merge_unique_keeps_unnumbered_witness :
  let u := match merge_unique [] [] demo_results with Some u => u | None => [] end in
  Forall (fun r => forall s, prop r k_article_number = JStr s ->
                             is_prefix (s2j "result_") s = false) demo_results /\
  merge_unique [] [] demo_results = Some u /\
  filter (fun r => negb (truthy (prop r k_article_number))) u =
  filter (fun r => negb (truthy (prop r k_article_number))) demo_results.
Proof.
  intro u.
  assert (H1 : Forall (fun r => forall s, prop r k_article_number = JStr s ->
                                          is_prefix (s2j "result_") s = false) demo_results).
  { repeat constructor; intros s Hs; vm_compute in Hs; try discriminate;
      injection Hs as <-; reflexivity. }
  assert (H2 : merge_unique [] [] demo_results = Some u) by (vm_compute; reflexivity).
  split; [exact H1|]; split; [exact H2|].
  exact (merge_unique_keeps_unnumbered _ _ H1 H2).
Defined.
